(** * Image-link browser (src/App.js): normalizer, extractor and UI state

    A shallow embedding of [ensureAbsoluteUrl], [extractImageLinks] and the
    state transitions of the [App] component, over an interface for the
    browser primitives the code calls ([URL], [DOMParser], [fetch]). *)

From Stdlib Require Import String Ascii List Bool Arith ZArith Lia.
From Stdlib Require Import Numbers.DecimalString Numbers.DecimalNat.
Import ListNotations.
Open Scope string_scope.

(* ================================================================== *)
(** ** JavaScript values the code manipulates *)

(** A value reaching a [catch] clause: either an instance of [Error]
    (with its [message]) or any other thrown value. *)
Inductive thrown : Type :=
| ErrorInstance (message : string)
| NotAnError.

(** Outcome of evaluating an expression that may throw (or of awaiting a
    promise that may reject). *)
Inductive completion (A : Type) : Type :=
| Normal (a : A)
| Throw (v : thrown).
Arguments Normal {A} a.
Arguments Throw {A} v.

Definition bind {A B} (c : completion A) (k : A -> completion B)
  : completion B :=
  match c with
  | Normal a => k a
  | Throw v => Throw v
  end.

Notation "x <- c ;; k" := (bind c (fun x => k))
  (at level 61, c at next level, right associativity).

(** [try { return e } catch { return null }] as an option. *)
Definition try_or_null {A} (c : completion A) : option A :=
  match c with
  | Normal a => Some a
  | Throw _ => None
  end.

(** *** String primitives *)

(** [!s] for a string [s]: only the empty string is falsy. *)
Definition falsy (s : string) : bool :=
  match s with
  | EmptyString => true
  | String _ _ => false
  end.

(** [!v] for [v] a string or [null]. *)
Definition falsy_or_null (v : option string) : bool :=
  match v with
  | None => true
  | Some s => falsy s
  end.

Definition lower_ascii (c : ascii) : ascii :=
  let n := nat_of_ascii c in
  if ((65 <=? n) && (n <=? 90))%nat then ascii_of_nat (n + 32) else c.

(** [String.prototype.toLowerCase] on the code units the code applies it
    to: a URL's [pathname] is percent-encoded, hence ASCII. *)
Fixpoint toLowerCase (s : string) : string :=
  match s with
  | EmptyString => EmptyString
  | String c r => String (lower_ascii c) (toLowerCase r)
  end.

(** [String.prototype.endsWith]. *)
Definition endsWith (s suffix : string) : bool :=
  let n := String.length s in
  let m := String.length suffix in
  (m <=? n)%nat && String.eqb (substring (n - m) m s) suffix.

(** Template-literal interpolation of a non-negative integer. *)
Definition number_toString (n : nat) : string :=
  NilEmpty.string_of_uint (Nat.to_uint n).

(** [array.filter(Boolean)] on an array of objects and [null]s: an object
    is truthy, [null] is not. *)
Fixpoint filter_Boolean {A} (l : list (option A)) : list A :=
  match l with
  | [] => []
  | Some a :: r => a :: filter_Boolean r
  | None :: r => filter_Boolean r
  end.

(** *** [Set] of strings, iterated in insertion order *)

Definition Set_has (s : list string) (x : string) : bool :=
  existsb (String.eqb x) s.

Definition Set_add (s : list string) (x : string) : list string :=
  if Set_has s x then s else s ++ [x].

(** [new Set(iterable)]: the elements are added one by one. *)
Definition new_Set (xs : list string) : list string :=
  fold_left Set_add xs [].

(** [Array.from(set)] lists the members in insertion order. *)
Definition Array_from_Set (s : list string) : list string := s.

(* ================================================================== *)
(** ** Browser primitives

    [URL], [DOMParser] and [String.prototype.trim] belong to the platform,
    not to the repository; the code is embedded over this interface. *)

Class Browser : Type := {
  (** the [URL] objects *)
  URL : Type;
  (** [new URL(input)] and [new URL(input, base)]; throws a [TypeError]
      when the input does not parse *)
  new_URL : string -> option URL -> completion URL;
  (** [url.toString()], the serialization ([href]) *)
  URL_toString : URL -> string;
  (** [url.pathname] *)
  URL_pathname : URL -> string;
  (** [String.prototype.trim] *)
  trim : string -> string;
  (** the documents and elements of the DOM *)
  Document : Type;
  Element : Type;
  (** [new DOMParser().parseFromString(text, 'text/html')]; never throws *)
  parseFromString : string -> Document;
  (** [document.querySelectorAll('a[href]')], in document order *)
  querySelectorAll_a_href : Document -> list Element;
  (** [anchor.getAttribute('href')] on an element that has the attribute *)
  getAttribute_href : Element -> string
}.

(* ================================================================== *)
(** ** The two logic functions *)

Definition IMAGE_SUFFIXES : list string := ["png"; "jpg"; "jpeg"].

Section Logic.
Context {B : Browser}.

Definition ensureAbsoluteUrl (rawUrl : string) : option string :=
  if falsy rawUrl then None
  else
    match new_URL rawUrl None with
    | Normal u => Some (URL_toString u)
    | Throw _ =>
        match new_URL ("https://" ++ rawUrl) None with
        | Normal u => Some (URL_toString u)
        | Throw _ => None
        end
    end.

(** The predicate of the second [filter]. *)
Definition hasImageSuffix (url : URL) : bool :=
  let pathname := toLowerCase (URL_pathname url) in
  existsb (fun suffix => endsWith pathname ("." ++ suffix)) IMAGE_SUFFIXES.

(** The callback of the first [map]: [null] when the [href] does not
    resolve against the base. *)
Definition resolveAnchor (base : URL) (anchor : Element) : option URL :=
  try_or_null (new_URL (getAttribute_href anchor) (Some base)).

(** The chain [anchors.map(...).filter(Boolean).filter(...).map(...)]. *)
Definition resolvedUrls (base : URL) (anchors : list Element) : list string :=
  map URL_toString
    (filter hasImageSuffix
       (filter_Boolean (map (resolveAnchor base) anchors))).

Definition extractImageLinks (htmlText baseUrl : string)
  : completion (list string) :=
  let document := parseFromString htmlText in
  let anchors := querySelectorAll_a_href document in
  base <- new_URL baseUrl None ;;
  Normal (Array_from_Set (new_Set (resolvedUrls base anchors))).

End Logic.

(* ================================================================== *)
(** ** The [App] component: state and handlers *)

(** The five [useState] cells. *)
Record AppState : Type := {
  urlInput : string;
  imageUrls : list string;
  selectedIndex : Z;
  loading : bool;
  error : string
}.

Definition initialState : AppState :=
  {| urlInput := ""; imageUrls := []; selectedIndex := 0%Z;
     loading := false; error := "" |}.

Definition setUrlInput (v : string) (s : AppState) : AppState :=
  {| urlInput := v; imageUrls := imageUrls s;
     selectedIndex := selectedIndex s; loading := loading s;
     error := error s |}.

Definition setImageUrls (v : list string) (s : AppState) : AppState :=
  {| urlInput := urlInput s; imageUrls := v;
     selectedIndex := selectedIndex s; loading := loading s;
     error := error s |}.

Definition setSelectedIndex (v : Z) (s : AppState) : AppState :=
  {| urlInput := urlInput s; imageUrls := imageUrls s;
     selectedIndex := v; loading := loading s; error := error s |}.

Definition setLoading (v : bool) (s : AppState) : AppState :=
  {| urlInput := urlInput s; imageUrls := imageUrls s;
     selectedIndex := selectedIndex s; loading := v; error := error s |}.

Definition setError (v : string) (s : AppState) : AppState :=
  {| urlInput := urlInput s; imageUrls := imageUrls s;
     selectedIndex := selectedIndex s; loading := loading s; error := v |}.

(** [array.length] as a JavaScript number. *)
Definition length_of {A} (l : list A) : Z := Z.of_nat (List.length l).

(** [array[i]], [undefined] out of range. *)
Definition array_get {A} (l : list A) (i : Z) : option A :=
  if (i <? 0)%Z then None else nth_error l (Z.to_nat i).

Definition selectedImage (s : AppState) : option string :=
  if (length_of (imageUrls s) =? 0)%Z then None
  else array_get (imageUrls s) (selectedIndex s).

Definition handlePrev (s : AppState) : AppState :=
  setSelectedIndex
    (let current := selectedIndex s in
     if (current >? 0)%Z then (current - 1)%Z else current) s.

Definition handleNext (s : AppState) : AppState :=
  setSelectedIndex
    (let current := selectedIndex s in
     if (current <? length_of (imageUrls s) - 1)%Z
     then (current + 1)%Z else current) s.

(** The [keydown] listener; [key] is [event.key]. *)
Definition handleKeyDown (key : string) (s : AppState) : AppState :=
  if (length_of (imageUrls s) =? 0)%Z then s
  else if String.eqb key "ArrowUp" then handlePrev s
  else if String.eqb key "ArrowDown" then handleNext s
  else s.

(** The status area of the rendered page. *)
Inductive StatusLine : Type :=
| StatusFetching
| StatusError (message : string)
| StatusFound (count : Z)
| StatusBlank.

Definition statusLine (s : AppState) : StatusLine :=
  if loading s then StatusFetching
  else if negb (falsy (error s)) then StatusError (error s)
  else if (length_of (imageUrls s) >? 0)%Z
       then StatusFound (length_of (imageUrls s))
  else StatusBlank.

(** The [disabled] attributes of the previous and the next button. *)
Definition prevDisabled (s : AppState) : bool := (selectedIndex s =? 0)%Z.

Definition nextDisabled (s : AppState) : bool :=
  (selectedIndex s =? length_of (imageUrls s) - 1)%Z.

(** The sidebar, [imageUrls.map((link, index) => ...)]: each link with
    whether its item carries the [selected] class. *)
Fixpoint listItems_from (index : Z) (links : list string) (selected : Z)
  : list (string * bool) :=
  match links with
  | [] => []
  | link :: r =>
      (link, (index =? selected)%Z) :: listItems_from (index + 1) r selected
  end.

Definition listItems (s : AppState) : list (string * bool) :=
  listItems_from 0 (imageUrls s) (selectedIndex s).

(** What [fetch] resolves to: the fields of the response the code reads.
    [text] is the outcome of awaiting [response.text()]. *)
Record Response : Type := {
  ok : bool;
  status : nat;
  text : completion string
}.

Definition MSG_INVALID : string :=
  "Enter a valid URL (include protocol or a valid domain).".
Definition MSG_NO_LINKS : string := "No image links found on this page.".
Definition MSG_FETCH_FALLBACK : string := "Unable to fetch the provided URL.".

Section Submit.
Context {B : Browser}.

(** [handleSubmit] up to its first [await]: the new state, and the URL
    passed to [fetch] when a request is issued ([None]: no fetch). *)
Definition handleSubmit_begin (s : AppState) : AppState * option string :=
  let normalizedUrl := ensureAbsoluteUrl (trim (urlInput s)) in
  if falsy_or_null normalizedUrl then
    (setSelectedIndex 0 (setImageUrls [] (setError MSG_INVALID s)), None)
  else
    (setSelectedIndex 0 (setImageUrls [] (setError "" (setLoading true s))),
     normalizedUrl).

(** The body of the [try] block once the promise of [fetch] is settled
    with [outcome]: the links, or the value thrown. *)
Definition fetchLinks (normalizedUrl : string) (outcome : completion Response)
  : completion (list string) :=
  response <- outcome ;;
  if negb (ok response) then
    Throw (ErrorInstance
             ("Request failed with status " ++ number_toString (status response)))
  else
    htmlText <- text response ;;
    extractImageLinks htmlText normalizedUrl.

(** The rest of [handleSubmit]: [try] body, [catch] and [finally]. *)
Definition handleSubmit_resume (normalizedUrl : string)
    (outcome : completion Response) (s : AppState) : AppState :=
  let s1 :=
    match fetchLinks normalizedUrl outcome with
    | Normal links =>
        let s' := setImageUrls links s in
        if (length_of links =? 0)%Z then setError MSG_NO_LINKS s' else s'
    | Throw fetchError =>
        setError
          (match fetchError with
           | ErrorInstance message => message
           | NotAnError => MSG_FETCH_FALLBACK
           end) s
    end in
  setLoading false s1.

(** *** The component as a transition system

    A configuration is the state together with the request in flight, if
    any.  The guards are those the rendered interface imposes: the text
    field and the submit button are [disabled] while [loading], and a list
    button exists for each index of [imageUrls] only. *)
Definition Config : Type := (AppState * option string)%type.

Inductive event : Type :=
| Change (value : string)
| Submit
| Settle (outcome : completion Response)
| Select (index : Z)
| ClickPrev
| ClickNext
| KeyDown (key : string).

Inductive step : Config -> event -> Config -> Prop :=
| step_change s p v :
    loading s = false ->
    step (s, p) (Change v) (setUrlInput v s, p)
| step_submit s p :
    loading s = false ->
    step (s, p) Submit
         (fst (handleSubmit_begin s),
          match snd (handleSubmit_begin s) with
          | Some url => Some url
          | None => p
          end)
| step_settle s url outcome :
    step (s, Some url) (Settle outcome)
         (handleSubmit_resume url outcome s, None)
| step_select s p i :
    (0 <= i < length_of (imageUrls s))%Z ->
    step (s, p) (Select i) (setSelectedIndex i s, p)
| step_prev s p :
    step (s, p) ClickPrev (handlePrev s, p)
| step_next s p :
    step (s, p) ClickNext (handleNext s, p)
| step_keydown s p key :
    step (s, p) (KeyDown key) (handleKeyDown key s, p).

Inductive reachable : Config -> Prop :=
| reachable_init : reachable (initialState, None)
| reachable_step c e c' : reachable c -> step c e c' -> reachable c'.

End Submit.

(* ================================================================== *)
(** ** A reference browser

    An executable instance of the interface, on which the code is run on
    concrete inputs.  Its [URL] parser covers the hierarchical URLs
    [scheme://host/path?query#fragment] and the relative references to
    them.  It leaves out userinfo and ports, percent-encoding, removal of
    dot segments, the backslash and missing-slash tolerance of the special
    schemes, and URLs with an opaque path ([mailto:...]), which it
    rejects.  Its HTML parser scans the text for [<a ...>] start tags and
    reads their first [href] attribute (quoted or not), without entity
    decoding. *)
Module Ref.

Local Open Scope char_scope.
Local Open Scope nat_scope.

Definition code (c : ascii) : nat := nat_of_ascii c.

Definition is_alpha (c : ascii) : bool :=
  ((65 <=? code c) && (code c <=? 90)) || ((97 <=? code c) && (code c <=? 122)).

Definition is_digit (c : ascii) : bool :=
  (48 <=? code c) && (code c <=? 57).

Definition is_scheme_char (c : ascii) : bool :=
  is_alpha c || is_digit c
  || Ascii.eqb c "+" || Ascii.eqb c "-" || Ascii.eqb c ".".

(** Printable ASCII other than the forbidden host code points. *)
Definition is_host_char (c : ascii) : bool :=
  (33 <=? code c) && (code c <=? 126)
  && negb (existsb (Ascii.eqb c)
             ["#"; "%"; "/"; ":"; "<"; ">"; "?"; "@"; "["; "\"; "]"; "^"; "|"]).

Definition is_space (c : ascii) : bool :=
  Ascii.eqb c " " || ((9 <=? code c) && (code c <=? 13)).

Definition not_authority_end (c : ascii) : bool :=
  negb (Ascii.eqb c "/" || Ascii.eqb c "?" || Ascii.eqb c "#").

Definition not_path_end (c : ascii) : bool :=
  negb (Ascii.eqb c "?" || Ascii.eqb c "#").

Definition not_hash (c : ascii) : bool := negb (Ascii.eqb c "#").

(** The longest prefix satisfying [p], and the rest. *)
Fixpoint span (p : ascii -> bool) (l : list ascii)
  : list ascii * list ascii :=
  match l with
  | [] => ([], [])
  | c :: r =>
      if p c then let (a, b) := span p r in (c :: a, b) else ([], l)
  end.

Definition lower (l : list ascii) : list ascii := map lower_ascii l.

Record url : Type := {
  scheme : list ascii;
  host : list ascii;
  path : list ascii;
  query : option (list ascii);
  fragment : option (list ascii)
}.

Definition with_mark (mark : ascii) (o : option (list ascii)) : list ascii :=
  match o with
  | Some x => mark :: x
  | None => []
  end.

Definition href (u : url) : list ascii :=
  scheme u ++ [":"; "/"; "/"] ++ host u ++ path u
  ++ with_mark "?" (query u) ++ with_mark "#" (fragment u).

(** Path, query and fragment of the text that follows the authority. *)
Definition parse_tail (l : list ascii)
  : list ascii * option (list ascii) * option (list ascii) :=
  let (p, r) := span not_path_end l in
  let (q, r') :=
    match r with
    | d :: t =>
        if Ascii.eqb d "?" then let (q, r') := span not_hash t in (Some q, r')
        else (None, r)
    | [] => (None, r)
    end in
  let f :=
    match r' with
    | d :: t => if Ascii.eqb d "#" then Some t else None
    | [] => None
    end in
  (p, q, f).

Definition root_if_empty (p : list ascii) : list ascii :=
  match p with
  | [] => ["/"]
  | _ => p
  end.

(** Host and the rest, for the text that follows [scheme://]. *)
Definition parse_authority (sch : list ascii) (l : list ascii) : option url :=
  let (h, r) := span not_authority_end l in
  match h with
  | [] => None
  | _ =>
      if forallb is_host_char h then
        let '(p, q, f) := parse_tail r in
        Some {| scheme := sch; host := lower h; path := root_if_empty p;
                query := q; fragment := f |}
      else None
  end.

(** The scheme of an input that starts with one, and what follows [:]. *)
Definition split_scheme (l : list ascii)
  : option (list ascii * list ascii) :=
  let (s, r) := span is_scheme_char l in
  match s, r with
  | c :: _, d :: r' =>
      if Ascii.eqb d ":" && is_alpha c then Some (lower s, r') else None
  | _, _ => None
  end.

(** What follows a leading [//]. *)
Definition after_slashes (l : list ascii) : option (list ascii) :=
  match l with
  | a :: b :: r => if Ascii.eqb a "/" && Ascii.eqb b "/" then Some r else None
  | _ => None
  end.

Definition parse_absolute (l : list ascii) : option url :=
  match split_scheme l with
  | Some (sch, r) =>
      match after_slashes r with
      | Some r' => parse_authority sch r'
      | None => None
      end
  | None => None
  end.

(** The base path up to and including its last [/]. *)
Fixpoint directory (p : list ascii) : list ascii :=
  match p with
  | [] => []
  | c :: r =>
      if existsb (Ascii.eqb "/") r then c :: directory r
      else if Ascii.eqb c "/" then [c] else []
  end.

Definition parse_relative (l : list ascii) (base : url) : option url :=
  match split_scheme l with
  | Some _ => parse_absolute l
  | None =>
      match after_slashes l, l with
      | Some r, _ => parse_authority (scheme base) r
      | None, [] =>
          Some {| scheme := scheme base; host := host base;
                  path := path base; query := query base; fragment := None |}
      | None, c :: t =>
          let '(p, q, f) := parse_tail l in
          if Ascii.eqb c "#" then
            Some {| scheme := scheme base; host := host base;
                    path := path base; query := query base;
                    fragment := Some t |}
          else if Ascii.eqb c "?" then
            Some {| scheme := scheme base; host := host base;
                    path := path base; query := q; fragment := f |}
          else if Ascii.eqb c "/" then
            Some {| scheme := scheme base; host := host base;
                    path := p; query := q; fragment := f |}
          else
            Some {| scheme := scheme base; host := host base;
                    path := directory (path base) ++ p;
                    query := q; fragment := f |}
      end
  end.

Definition invalid_url : thrown := ErrorInstance "Invalid URL".

Definition construct (input : string) (base : option url) : completion url :=
  let l := list_ascii_of_string input in
  match
    match base with
    | None => parse_absolute l
    | Some b => parse_relative l b
    end
  with
  | Some u => Normal u
  | None => Throw invalid_url
  end.

(** *** Whitespace trimming *)

Fixpoint drop_spaces (l : list ascii) : list ascii :=
  match l with
  | c :: r => if is_space c then drop_spaces r else l
  | [] => []
  end.

Definition trim_list (l : list ascii) : list ascii :=
  List.rev (drop_spaces (List.rev (drop_spaces l))).

(** *** Anchors of an HTML text *)

Definition is_quote (c : ascii) : bool :=
  Ascii.eqb c (ascii_of_nat 34) || Ascii.eqb c (ascii_of_nat 39).

Definition is_name_char (c : ascii) : bool :=
  negb (is_space c || Ascii.eqb c "=" || Ascii.eqb c "/" || Ascii.eqb c ">").

Definition is_href (name : list ascii) : bool :=
  String.eqb (string_of_list_ascii (lower name)) "href".

(** The value of the first [href] attribute among the attributes [l] of a
    start tag. *)
Fixpoint attribute_href (fuel : nat) (l : list ascii) : option (list ascii) :=
  match fuel with
  | O => None
  | S fuel' =>
      match drop_spaces l with
      | [] => None
      | ">" :: _ => None
      | "/" :: r => attribute_href fuel' r
      | l1 =>
          let (name, r) := span is_name_char l1 in
          match drop_spaces r with
          | "=" :: r1 =>
              let (value, rest) :=
                match drop_spaces r1 with
                | q :: r2 =>
                    if is_quote q then
                      let (v, r3) := span (fun c => negb (Ascii.eqb c q)) r2 in
                      (v, tl r3)
                    else
                      span (fun c => negb (is_space c || Ascii.eqb c ">"))
                           (q :: r2)
                | [] => ([], [])
                end in
              if is_href name then Some value
              else attribute_href fuel' rest
          | r1 =>
              if is_href name then Some []
              else
                match name with
                | [] => attribute_href fuel' (tl r1)
                | _ => attribute_href fuel' r1
                end
          end
      end
  end.

(** The [href] values of the [a] start tags, in document order. *)
Fixpoint anchors (l : list ascii) : list string :=
  match l with
  | [] => []
  | c :: r =>
      match c, r with
      | "<", a :: sp :: attrs =>
          if Ascii.eqb (lower_ascii a) "a" && is_space sp then
            match attribute_href (S (List.length attrs)) attrs with
            | Some v => [string_of_list_ascii v]
            | None => []
            end
          else []
      | _, _ => []
      end ++ anchors r
  end.

#[export] Instance browser : Browser := {|
  URL := url;
  new_URL := construct;
  URL_toString := fun u => string_of_list_ascii (href u);
  URL_pathname := fun u => string_of_list_ascii (path u);
  trim := fun s => string_of_list_ascii (trim_list (list_ascii_of_string s));
  Document := list string;
  Element := string;
  parseFromString := fun s => anchors (list_ascii_of_string s);
  querySelectorAll_a_href := fun d => d;
  getAttribute_href := fun e => e
|}.

End Ref.

(* ================================================================== *)
(** ** Vocabulary of the statements *)

Section UrlStandard.
Context {B : Browser}.

(** [new URL(input)] throws. *)
Definition rejects (input : string) : Prop :=
  exists v, new_URL input None = Throw v.

(** The serialization of a parsed URL parses again, to a URL with the
    same serialization (URL Standard, serializer/parser round trip). *)
Definition serialization_reparses : Prop :=
  forall input u,
    new_URL input None = Normal u ->
    exists u',
      new_URL (URL_toString u) None = Normal u'
      /\ URL_toString u' = URL_toString u.

(** [new URL(href, base)] yields a URL with the given serialization and
    path. *)
Definition resolves_to (base : URL) (href result pathname : string) : Prop :=
  exists u,
    new_URL href (Some base) = Normal u
    /\ URL_toString u = result
    /\ URL_pathname u = pathname.

End UrlStandard.

(** Position of the first occurrence of [x] in [l] (the length of [l]
    when there is none). *)
Fixpoint firstIndex (x : string) (l : list string) : nat :=
  match l with
  | [] => 0
  | y :: r => if String.eqb y x then 0 else S (firstIndex x r)
  end.

(** The elements of [xs] that are neither in [seen] nor earlier in [xs],
    in order: what adding [xs] to a set holding [seen] appends. *)
Fixpoint fresh (seen xs : list string) : list string :=
  match xs with
  | [] => []
  | x :: r =>
      if Set_has seen x then fresh seen r else x :: fresh (seen ++ [x]) r
  end.

(** *** Sample inputs *)
Module Sample.

Definition dq : string := String (ascii_of_nat 34) "".

Definition anchor (href : string) : string :=
  "<a href=" ++ dq ++ href ++ dq ++ ">link</a>".

(** The four anchors of the extraction example, in document order. *)
Definition page : string :=
  "<html><body>" ++ anchor "a.png" ++ anchor "/b.JPG"
  ++ anchor "https://other.test/c.jpeg?x=1" ++ anchor "d.gif"
  ++ "</body></html>".

(** A page where two anchors resolve to the same image URL and one
    [href] does not resolve. *)
Definition page_dup : string :=
  "<p>" ++ anchor "x/one.jpg" ++ anchor "//bad host/z.png"
  ++ anchor "two.png" ++ anchor "/x/one.jpg" ++ anchor "notes.txt".

Definition typed (input : string) : AppState := setUrlInput input initialState.

(** A state showing three images, the last one selected. *)
Definition browsing : AppState :=
  {| urlInput := "site.test"; imageUrls := ["u0"; "u1"; "u2"];
     selectedIndex := 2%Z; loading := false; error := "" |}.

(** The state between a successful [handleSubmit_begin] and the settling
    of the request. *)
Definition waiting : AppState :=
  {| urlInput := "site.test/page"; imageUrls := [];
     selectedIndex := 0%Z; loading := true; error := "" |}.

Definition ok_response (body : string) : completion Response :=
  Normal {| ok := true; status := 200; text := Normal body |}.

Definition https (host path : string) (query : option string) : Ref.url :=
  {| Ref.scheme := list_ascii_of_string "https";
     Ref.host := list_ascii_of_string host;
     Ref.path := list_ascii_of_string path;
     Ref.query := option_map list_ascii_of_string query;
     Ref.fragment := None |}.

(** [https://site.test/page], the base of the extraction example. *)
Definition site_page : Ref.url := https "site.test" "/page" None.

(** A visit on the reference browser: type an address, submit, receive
    the example page, step to the next image. *)
Definition visit_typed : Config := (typed "site.test/page", None).

Definition visit_submitted : Config :=
  (fst (handleSubmit_begin (B := Ref.browser) (fst visit_typed)),
   Some "https://site.test/page").

Definition visit_loaded : Config :=
  (handleSubmit_resume (B := Ref.browser) "https://site.test/page"
     (ok_response page) (fst visit_submitted), None).

Definition visit_next : Config := (handleNext (fst visit_loaded), None).

Definition not_found : Response :=
  {| ok := false; status := 404; text := Normal "<h1>Not Found</h1>" |}.

Definition unavailable : Response :=
  {| ok := false; status := 503; text := Throw NotAnError |}.

(** A page without any image link. *)
Definition page_plain : string :=
  "<p>" ++ anchor "notes.txt" ++ anchor "/about" ++ "</p>".

End Sample.

(** The selection invariant of a configuration, in the form preserved by
    every transition: the selection is a valid index of a non-empty list,
    it is 0 on the empty list, and the list is empty while a request is
    in flight. *)
Definition selection_ok (c : Config) : Prop :=
  let s := fst c in
  (imageUrls s <> [] ->
   (0 <= selectedIndex s < length_of (imageUrls s))%Z)
  /\ (imageUrls s = [] -> selectedIndex s = 0%Z)
  /\ (snd c <> None -> imageUrls s = []).

(** What the reference parser guarantees of the URLs it builds. *)
Definition starts_with (c : ascii) (l : list ascii) : Prop :=
  exists r, l = c :: r.

Definition ends_span (p : ascii -> bool) (l : list ascii) : Prop :=
  match l with
  | [] => True
  | c :: _ => p c = false
  end.

Record well_formed (u : Ref.url) : Prop := {
  wf_scheme_chars : forallb Ref.is_scheme_char (Ref.scheme u) = true;
  wf_scheme_alpha :
    exists c r, Ref.scheme u = c :: r /\ Ref.is_alpha c = true;
  wf_scheme_lower : Ref.lower (Ref.scheme u) = Ref.scheme u;
  wf_host_chars : forallb Ref.is_host_char (Ref.host u) = true;
  wf_host_nonempty : Ref.host u <> [];
  wf_host_lower : Ref.lower (Ref.host u) = Ref.host u;
  wf_path_root : starts_with "/" (Ref.path u);
  wf_path_chars : forallb Ref.not_path_end (Ref.path u) = true;
  wf_query_chars :
    forall q, Ref.query u = Some q -> forallb Ref.not_hash q = true
}.

(** What holds of every reachable configuration besides [selection_ok]:
    [loading] is on exactly while a request is in flight, no error is
    shown while it is, the list has no duplicates and holds image URLs
    only, and the URL of the request is an output of the normalizer. *)
Definition display_ok {B : Browser} (c : Config) : Prop :=
  let s := fst c in
  (loading s = true <-> snd c <> None)
  /\ (snd c <> None -> error s = "")
  /\ NoDup (imageUrls s)
  /\ (forall x, In x (imageUrls s) ->
               exists u, x = URL_toString u /\ hasImageSuffix u = true)
  /\ (forall url, snd c = Some url ->
                 exists rawUrl, ensureAbsoluteUrl rawUrl = Some url).

(* ================================================================== *)
(** ** The normalizer *)

Section Normalizer.
Context {B : Browser}.

Lemma falsy_spec (s : string) : falsy s = true <-> s = "".
Proof. destruct s; simpl; split; congruence. Qed.

Lemma falsy_false (s : string) : s <> "" -> falsy s = false.
Proof. destruct s; simpl; congruence. Qed.

Lemma ensureAbsoluteUrl_first_try (rawUrl : string) (u : URL) :
  rawUrl <> "" ->
  new_URL rawUrl None = Normal u ->
  ensureAbsoluteUrl rawUrl = Some (URL_toString u).
Proof.
  intros Hne Hparse. unfold ensureAbsoluteUrl.
  rewrite (falsy_false _ Hne), Hparse. reflexivity.
Qed.

(** C4.  A non-empty input that parses directly as an absolute URL is
    normalized to the serialization of that URL. *)
Theorem ensureAbsoluteUrl_direct (rawUrl : string) (u : URL) :
  rawUrl <> "" ->
  new_URL rawUrl None = Normal u ->
  ensureAbsoluteUrl rawUrl = Some (URL_toString u).
Proof. exact (ensureAbsoluteUrl_first_try rawUrl u). Qed.

(** C5.  An input that does not parse directly but parses once prefixed
    with [https://] is normalized to the serialization of the prefixed
    URL.  The empty input is no exception because [https://] alone has no
    host and does not parse. *)
Theorem ensureAbsoluteUrl_prefixed (rawUrl : string) (u : URL) :
  rejects "https://" ->
  rejects rawUrl ->
  new_URL ("https://" ++ rawUrl) None = Normal u ->
  ensureAbsoluteUrl rawUrl = Some (URL_toString u).
Proof.
  intros [v0 Hbare] [v Hdirect] Hprefixed. unfold ensureAbsoluteUrl.
  destruct rawUrl as [|c r].
  - simpl in Hprefixed. congruence.
  - simpl falsy. cbv iota. rewrite Hdirect, Hprefixed. reflexivity.
Qed.

Lemma ensureAbsoluteUrl_null (rawUrl : string) :
  ensureAbsoluteUrl rawUrl = None <->
  rawUrl = "" \/ (rejects rawUrl /\ rejects ("https://" ++ rawUrl)).
Proof.
  unfold ensureAbsoluteUrl, rejects. split.
  - destruct (falsy rawUrl) eqn:Hf.
    + intros _. left. now apply falsy_spec.
    + destruct (new_URL rawUrl None) as [u|v]; [discriminate|].
      destruct (new_URL ("https://" ++ rawUrl) None) as [u'|v'];
        [discriminate|].
      intros _. right. split; eauto.
  - intros [-> | [[v Hv] [v' Hv']]]; [reflexivity|].
    destruct (falsy rawUrl); [reflexivity|].
    rewrite Hv, Hv'. reflexivity.
Qed.

(** C6.  The normalizer returns [null] exactly when the input is empty or
    parses neither directly nor with the [https://] prefix; the submit
    handler then shows the validation message, empties the list (with the
    selection back at 0) and issues no fetch. *)
Theorem invalid_input_no_fetch (rawUrl : string) (s : AppState) :
  (ensureAbsoluteUrl rawUrl = None <->
   rawUrl = "" \/ (rejects rawUrl /\ rejects ("https://" ++ rawUrl)))
  /\ (ensureAbsoluteUrl (trim (urlInput s)) = None ->
      handleSubmit_begin s =
        ({| urlInput := urlInput s; imageUrls := [];
            selectedIndex := 0%Z; loading := loading s;
            error := MSG_INVALID |}, None)
      /\ (loading s = false ->
          statusLine (fst (handleSubmit_begin s)) = StatusError MSG_INVALID)).
Proof.
  split; [apply ensureAbsoluteUrl_null|].
  intros Hnull. unfold handleSubmit_begin. rewrite Hnull. simpl.
  split; [reflexivity|].
  intros Hl. unfold statusLine. simpl. rewrite Hl. reflexivity.
Qed.

(** C9.  The normalizer is idempotent on its successes: a string it
    returns is returned unchanged when normalized again.  This rests on
    two facts of the URL Standard: the empty string does not parse, and a
    serialization parses back to a URL with the same serialization. *)
Theorem ensureAbsoluteUrl_idempotent (rawUrl canonical : string) :
  rejects "" ->
  serialization_reparses ->
  ensureAbsoluteUrl rawUrl = Some canonical ->
  ensureAbsoluteUrl canonical = Some canonical.
Proof.
  intros [v0 Hempty] Hround Hfirst.
  assert (Hsome : exists input u,
             new_URL input None = Normal u /\ canonical = URL_toString u).
  { unfold ensureAbsoluteUrl in Hfirst.
    destruct (falsy rawUrl); [discriminate|].
    destruct (new_URL rawUrl None) as [u|v] eqn:Hd.
    - exists rawUrl, u. split; congruence.
    - destruct (new_URL ("https://" ++ rawUrl) None) as [u|v'] eqn:Hp;
        [|discriminate].
      exists ("https://" ++ rawUrl), u. split; congruence. }
  destruct Hsome as (input & u & Hparse & ->).
  destruct (Hround input u Hparse) as (u' & Hre & Hsame).
  transitivity (Some (URL_toString u')); [|now rewrite Hsame].
  apply ensureAbsoluteUrl_first_try; [|exact Hre].
  intros Hnil. rewrite Hnil in Hre. congruence.
Qed.

End Normalizer.

(* ================================================================== *)
(** ** Navigation and submission *)

Section Component.
Context {B : Browser}.

Lemma setSelectedIndex_same (s : AppState) :
  setSelectedIndex (selectedIndex s) s = s.
Proof. destruct s; reflexivity. Qed.

Lemma handlePrev_at_first (s : AppState) :
  selectedIndex s = 0%Z -> handlePrev s = s.
Proof.
  intros H. unfold handlePrev. rewrite H. simpl.
  rewrite <- H. apply setSelectedIndex_same.
Qed.

Lemma handleNext_at_last (s : AppState) :
  selectedIndex s = (length_of (imageUrls s) - 1)%Z -> handleNext s = s.
Proof.
  intros H. unfold handleNext. cbv zeta.
  rewrite <- H, Z.ltb_irrefl. apply setSelectedIndex_same.
Qed.

(** C8.  At index 0 a previous-step (button or ArrowUp) leaves the state
    as it is; at the last index a next-step (button or ArrowDown) does. *)
Theorem navigation_clamped (s : AppState) :
  (selectedIndex s = 0%Z ->
   handlePrev s = s /\ handleKeyDown "ArrowUp" s = s)
  /\ (selectedIndex s = (length_of (imageUrls s) - 1)%Z ->
      handleNext s = s /\ handleKeyDown "ArrowDown" s = s).
Proof.
  split; intros H.
  - split; [now apply handlePrev_at_first|].
    unfold handleKeyDown. destruct (length_of (imageUrls s) =? 0)%Z;
      [reflexivity|]. simpl. now apply handlePrev_at_first.
  - split; [now apply handleNext_at_last|].
    unfold handleKeyDown. destruct (length_of (imageUrls s) =? 0)%Z;
      [reflexivity|]. simpl. now apply handleNext_at_last.
Qed.

(** C2, as amended.  A rejected fetch is caught: the handler ends with
    [loading] off, list and selection untouched, and the error set to the
    rejection's own message when the rejection is an [Error], to the
    fallback text otherwise. *)
Theorem fetch_rejection_message
    (normalizedUrl : string) (v : thrown) (s : AppState) :
  handleSubmit_resume normalizedUrl (Throw v) s =
    {| urlInput := urlInput s; imageUrls := imageUrls s;
       selectedIndex := selectedIndex s; loading := false;
       error := match v with
                | ErrorInstance message => message
                | NotAnError => MSG_FETCH_FALLBACK
                end |}.
Proof. reflexivity. Qed.

Lemma handleSubmit_begin_clears (s : AppState) :
  imageUrls (fst (handleSubmit_begin s)) = []
  /\ selectedIndex (fst (handleSubmit_begin s)) = 0%Z.
Proof.
  unfold handleSubmit_begin.
  destruct (falsy_or_null _); simpl; split; reflexivity.
Qed.

Lemma handleSubmit_resume_index (url : string) (o : completion Response)
    (s : AppState) :
  selectedIndex (handleSubmit_resume url o s) = selectedIndex s.
Proof.
  unfold handleSubmit_resume.
  destruct (fetchLinks url o) as [links|v]; simpl; [|reflexivity].
  destruct (length_of links =? 0)%Z; reflexivity.
Qed.

Lemma length_of_cons_pos {A} (x : A) (l : list A) :
  (0 < length_of (x :: l))%Z.
Proof. unfold length_of. simpl length. lia. Qed.

Lemma handlePrev_selection_ok (s : AppState) (p : option string) :
  selection_ok (s, p) -> selection_ok (handlePrev s, p).
Proof.
  unfold selection_ok, handlePrev. cbn [fst snd imageUrls selectedIndex
    setSelectedIndex]. intros (Hin & Hnil & Hpend).
  split; [|split]; [| |exact Hpend].
  - intros Hne. specialize (Hin Hne).
    destruct (selectedIndex s >? 0)%Z eqn:Hgt; lia.
  - intros Hs. rewrite (Hnil Hs). reflexivity.
Qed.

Lemma handleNext_selection_ok (s : AppState) (p : option string) :
  selection_ok (s, p) -> selection_ok (handleNext s, p).
Proof.
  unfold selection_ok, handleNext. cbn [fst snd imageUrls selectedIndex
    setSelectedIndex]. intros (Hin & Hnil & Hpend).
  split; [|split]; [| |exact Hpend].
  - intros Hne. specialize (Hin Hne).
    destruct (selectedIndex s <? length_of (imageUrls s) - 1)%Z eqn:Hlt; lia.
  - intros Hs. rewrite (Hnil Hs), Hs. reflexivity.
Qed.

Lemma step_preserves_selection_ok (c c' : Config) (e : event) :
  selection_ok c -> step c e c' -> selection_ok c'.
Proof.
  intros Hok Hstep.
  destruct Hstep as [s p v Hl | s p Hl | s url o | s p i Hi | s p | s p
                     | s p key].
  - exact Hok.
  - unfold selection_ok. cbn [fst snd].
    destruct (handleSubmit_begin_clears s) as [-> ->].
    split; [|split]; congruence.
  - destruct Hok as (Hin & Hnil & Hpend). unfold selection_ok.
    cbn [fst snd] in *. rewrite handleSubmit_resume_index.
    assert (Hs : imageUrls s = []) by (apply Hpend; discriminate).
    rewrite (Hnil Hs).
    split; [|split]; [|reflexivity|congruence].
    intros Hne. destruct (imageUrls (handleSubmit_resume url o s)) as [|x l];
      [congruence|]. pose proof (length_of_cons_pos x l). lia.
  - destruct Hok as (Hin & Hnil & Hpend). unfold selection_ok.
    cbn [fst snd imageUrls selectedIndex setSelectedIndex] in *.
    split; [|split]; [intros _; exact Hi| |exact Hpend].
    intros Hs. rewrite Hs in Hi. unfold length_of in Hi. simpl in Hi. lia.
  - now apply handlePrev_selection_ok.
  - now apply handleNext_selection_ok.
  - unfold handleKeyDown.
    destruct (length_of (imageUrls s) =? 0)%Z; [exact Hok|].
    destruct (String.eqb key "ArrowUp"); [now apply handlePrev_selection_ok|].
    destruct (String.eqb key "ArrowDown");
      [now apply handleNext_selection_ok|exact Hok].
Qed.

Lemma reachable_selection_ok (c : Config) : reachable c -> selection_ok c.
Proof.
  induction 1 as [|c e c' _ IH Hstep].
  - unfold selection_ok; simpl. repeat split; congruence.
  - exact (step_preserves_selection_ok c c' e IH Hstep).
Qed.

(** While a request is in flight the form is disabled. *)
Lemma reachable_pending_loading (s : AppState) (url : string) :
  reachable (s, Some url) -> loading s = true.
Proof.
  intros H. remember (s, Some url) as c eqn:Hc.
  revert s url Hc. induction H as [|c e c' Hr IH Hstep]; intros s0 url0 Hc.
  - discriminate.
  - destruct Hstep as [s p v Hl | s p Hl | s url o | s p i Hi | s p | s p
                       | s p key]; inversion Hc; subst; clear Hc.
    + simpl. eapply IH; reflexivity.
    + unfold handleSubmit_begin in *.
      destruct (falsy_or_null _) eqn:Hf; simpl in *.
      * subst. rewrite (IH s url0 eq_refl) in Hl. discriminate.
      * reflexivity.
    + simpl. eapply IH; reflexivity.
    + unfold handlePrev; simpl. eapply IH; reflexivity.
    + unfold handleNext; simpl. eapply IH; reflexivity.
    + unfold handleKeyDown.
      destruct (length_of (imageUrls s) =? 0)%Z; [eapply IH; reflexivity|].
      destruct (String.eqb key "ArrowUp");
        [unfold handlePrev; simpl; eapply IH; reflexivity|].
      destruct (String.eqb key "ArrowDown");
        [unfold handleNext; simpl; eapply IH; reflexivity|].
      eapply IH; reflexivity.
Qed.

(** C3.  In every reachable configuration the selection is a valid index
    of a non-empty list, and every transition that replaces the list
    (submitting, and settling the request) ends with the selection at 0. *)
Theorem selection_invariant (c : Config) :
  reachable c ->
  (imageUrls (fst c) <> [] ->
   (0 <= selectedIndex (fst c) < length_of (imageUrls (fst c)))%Z)
  /\ (forall c', step c Submit c' -> selectedIndex (fst c') = 0%Z)
  /\ (forall outcome c',
        step c (Settle outcome) c' -> selectedIndex (fst c') = 0%Z).
Proof.
  intros Hr. destruct (reachable_selection_ok c Hr) as (Hin & Hnil & Hpend).
  split; [exact Hin|]. split.
  - intros c' Hstep. inversion Hstep; subst. simpl.
    apply handleSubmit_begin_clears.
  - intros o c' Hstep. inversion Hstep; subst. cbn [fst snd] in *.
    rewrite handleSubmit_resume_index. apply Hnil, Hpend. discriminate.
Qed.

End Component.

(* ================================================================== *)
(** ** The extractor *)

(** *** The suffix test and the set, on small inputs *)

Example endsWith_suffix : endsWith "/dir/photo.jpeg" ".jpeg" = true.
Proof. reflexivity. Qed.

Example endsWith_inner : endsWith "/photo.png/view" ".png" = false.
Proof. reflexivity. Qed.

Example endsWith_longer : endsWith "png" ".png" = false.
Proof. reflexivity. Qed.

Example toLowerCase_path : toLowerCase "/B.JPG" = "/b.jpg".
Proof. reflexivity. Qed.

Example new_Set_keeps_first :
  new_Set ["b"; "a"; "b"; "c"; "a"] = ["b"; "a"; "c"].
Proof. reflexivity. Qed.

(** *** Insertion-ordered sets *)

Lemma Set_has_In (s : list string) (x : string) :
  Set_has s x = true <-> In x s.
Proof.
  unfold Set_has. rewrite existsb_exists. split.
  - intros (y & Hy & Heq). apply String.eqb_eq in Heq. now subst.
  - intros H. exists x. split; [assumption|apply String.eqb_refl].
Qed.

Lemma Set_has_not_In (s : list string) (x : string) :
  Set_has s x = false <-> ~ In x s.
Proof.
  rewrite <- Set_has_In. destruct (Set_has s x); split; congruence.
Qed.

(** Adding [xs] to a set appends the fresh elements of [xs]. *)
Lemma fold_Set_add (xs seen : list string) :
  fold_left Set_add xs seen = (seen ++ fresh seen xs)%list.
Proof.
  revert seen. induction xs as [|x r IH]; intros seen; simpl.
  - now rewrite app_nil_r.
  - unfold Set_add at 2. destruct (Set_has seen x).
    + apply IH.
    + rewrite IH, <- app_assoc. reflexivity.
Qed.

Lemma new_Set_fresh (xs : list string) : new_Set xs = fresh [] xs.
Proof. unfold new_Set. now rewrite fold_Set_add. Qed.

Lemma fresh_In (xs seen : list string) (x : string) :
  In x (fresh seen xs) <-> In x xs /\ ~ In x seen.
Proof.
  revert seen. induction xs as [|a r IH]; intros seen; simpl.
  - tauto.
  - destruct (Set_has seen a) eqn:Hs.
    + apply Set_has_In in Hs. rewrite IH. split.
      * tauto.
      * intros [[-> | Hr] Hn]; [contradiction|tauto].
    + apply Set_has_not_In in Hs. simpl. rewrite IH, in_app_iff. simpl.
      split.
      * intros [-> | [Hr Hn]]; [tauto|]. split; [tauto|]. tauto.
      * intros [[-> | Hr] Hn]; [tauto|].
        destruct (string_dec a x) as [-> | Hne]; [tauto|].
        right. split; [assumption|]. intros [H | [H | []]]; tauto.
Qed.

Lemma fresh_NoDup (xs seen : list string) : NoDup (fresh seen xs).
Proof.
  revert seen. induction xs as [|a r IH]; intros seen; simpl.
  - constructor.
  - destruct (Set_has seen a); [apply IH|].
    constructor; [|apply IH].
    rewrite fresh_In, in_app_iff. simpl. tauto.
Qed.

Lemma firstIndex_cons_neq (x a : string) (l : list string) :
  a <> x -> firstIndex x (a :: l) = S (firstIndex x l).
Proof.
  intros H. simpl. destruct (String.eqb a x) eqn:E; [|reflexivity].
  apply String.eqb_eq in E. contradiction.
Qed.

Lemma firstIndex_cons_eq (x : string) (l : list string) :
  firstIndex x (x :: l) = 0.
Proof. simpl. now rewrite String.eqb_refl. Qed.

(** [firstIndex] is the position of the first occurrence. *)
Lemma firstIndex_spec (x : string) (l : list string) :
  In x l ->
  nth_error l (firstIndex x l) = Some x
  /\ forall j, j < firstIndex x l -> nth_error l j <> Some x.
Proof.
  induction l as [|a r IH]; [intros []|]. intros Hin.
  destruct (string_dec a x) as [-> | Hne].
  - rewrite firstIndex_cons_eq. split; [reflexivity|].
    intros j Hj. inversion Hj.
  - rewrite firstIndex_cons_neq by assumption.
    destruct Hin as [|Hin]; [contradiction|].
    destruct (IH Hin) as [Hat Hbefore]. split; [exact Hat|].
    intros [|j] Hj; simpl; [congruence|].
    apply Hbefore. now apply Nat.succ_lt_mono.
Qed.

(** The fresh elements come in the order of their first occurrences. *)
Lemma fresh_order (xs seen : list string) (x y : string) :
  In x (fresh seen xs) -> In y (fresh seen xs) ->
  (firstIndex x (fresh seen xs) < firstIndex y (fresh seen xs)
   <-> firstIndex x xs < firstIndex y xs).
Proof.
  revert seen. induction xs as [|a r IH]; intros seen; simpl fresh.
  - intros [].
  - destruct (Set_has seen a) eqn:Hs.
    + intros Hx Hy. apply Set_has_In in Hs.
      assert (a <> x) by (apply fresh_In in Hx; intros ->; tauto).
      assert (a <> y) by (apply fresh_In in Hy; intros ->; tauto).
      rewrite !firstIndex_cons_neq by assumption.
      rewrite <- Nat.succ_lt_mono. now apply IH.
    + intros Hx Hy.
      destruct (string_dec a x) as [Hax | Hax];
        destruct (string_dec a y) as [Hay | Hay]; subst.
      * rewrite !firstIndex_cons_eq. reflexivity.
      * rewrite !firstIndex_cons_eq, !firstIndex_cons_neq by assumption.
        split; intros _; apply Nat.lt_0_succ.
      * rewrite !firstIndex_cons_eq, !firstIndex_cons_neq by assumption.
        split; intros H; inversion H.
      * rewrite !firstIndex_cons_neq by assumption.
        rewrite <- !Nat.succ_lt_mono.
        destruct Hx as [|Hx]; [contradiction|].
        destruct Hy as [|Hy]; [contradiction|].
        now apply IH.
Qed.

Lemma NoDup_count_occ_one (l : list string) (x : string) :
  NoDup l -> In x l -> count_occ string_dec l x = 1.
Proof.
  intros Hnd Hin.
  pose proof (proj1 (NoDup_count_occ string_dec l) Hnd x) as Hle.
  pose proof (proj1 (count_occ_In string_dec l x) Hin) as Hpos.
  lia.
Qed.

Section Extractor.
Context {B : Browser}.

Lemma extractImageLinks_valid (htmlText baseUrl : string) (base : URL) :
  new_URL baseUrl None = Normal base ->
  extractImageLinks htmlText baseUrl =
    Normal (fresh [] (resolvedUrls base
                        (querySelectorAll_a_href (parseFromString htmlText)))).
Proof.
  intros H. unfold extractImageLinks, Array_from_Set. rewrite H. simpl.
  now rewrite new_Set_fresh.
Qed.

(** C7.  With a valid base the extractor returns a list without
    duplicates, holding exactly the qualifying resolved URLs, each once,
    ordered by their first occurrences among the qualifying URLs. *)
Theorem extractImageLinks_dedup (htmlText baseUrl : string) (base : URL) :
  new_URL baseUrl None = Normal base ->
  exists links,
    extractImageLinks htmlText baseUrl = Normal links
    /\ let qualifying :=
         resolvedUrls base
           (querySelectorAll_a_href (parseFromString htmlText)) in
       NoDup links
       /\ (forall x, In x links <-> In x qualifying)
       /\ (forall x, In x qualifying -> count_occ string_dec links x = 1)
       /\ (forall x y, In x links -> In y links ->
             (firstIndex x links < firstIndex y links
              <-> firstIndex x qualifying < firstIndex y qualifying)).
Proof.
  intros H. eexists. split; [exact (extractImageLinks_valid _ _ _ H)|].
  cbv zeta.
  set (q := resolvedUrls base _).
  assert (Hin : forall x, In x (fresh [] q) <-> In x q).
  { intros x. rewrite fresh_In. simpl. tauto. }
  split; [apply fresh_NoDup|]. split; [exact Hin|]. split.
  - intros x Hx. apply NoDup_count_occ_one; [apply fresh_NoDup|now apply Hin].
  - intros x y. apply fresh_order.
Qed.

Lemma filter_Boolean_In {A} (l : list (option A)) (a : A) :
  In a (filter_Boolean l) <-> In (Some a) l.
Proof.
  induction l as [|[b|] r IH]; simpl.
  - tauto.
  - rewrite IH. split; intros [H | H]; auto; left; congruence.
  - rewrite IH. split; [auto|]. intros [H | H]; [discriminate|assumption].
Qed.

Lemma resolvedUrls_In (base : URL) (anchors : list Element) (x : string) :
  In x (resolvedUrls base anchors) <->
  exists anchor u,
    In anchor anchors
    /\ new_URL (getAttribute_href anchor) (Some base) = Normal u
    /\ hasImageSuffix u = true
    /\ x = URL_toString u.
Proof.
  unfold resolvedUrls. rewrite in_map_iff. split.
  - intros (u & <- & Hu). apply filter_In in Hu. destruct Hu as [Hu Hs].
    apply filter_Boolean_In, in_map_iff in Hu.
    destruct Hu as (anchor & Hr & Ha). exists anchor, u.
    unfold resolveAnchor, try_or_null in Hr.
    destruct (new_URL (getAttribute_href anchor) (Some base)) as [u'|v];
      [|discriminate].
    repeat split; congruence.
  - intros (anchor & u & Ha & Hr & Hs & ->). exists u. split; [reflexivity|].
    apply filter_In. split; [|assumption].
    apply filter_Boolean_In, in_map_iff. exists anchor.
    split; [|assumption]. unfold resolveAnchor. now rewrite Hr.
Qed.

(** C10.  With a valid base the extractor returns normally whatever the
    HTML text, its result holding exactly the image URLs of the anchors
    whose [href] resolves (the others are omitted); with a base that does
    not parse, the exception of the [URL] constructor propagates, and the
    empty string is such a base. *)
Theorem extractImageLinks_total_on_valid_base (htmlText : string) :
  (forall baseUrl base,
      new_URL baseUrl None = Normal base ->
      exists links,
        extractImageLinks htmlText baseUrl = Normal links
        /\ forall x,
             In x links <->
             exists anchor u,
               In anchor (querySelectorAll_a_href (parseFromString htmlText))
               /\ new_URL (getAttribute_href anchor) (Some base) = Normal u
               /\ hasImageSuffix u = true
               /\ x = URL_toString u)
  /\ (forall baseUrl v,
        new_URL baseUrl None = Throw v ->
        extractImageLinks htmlText baseUrl = Throw v)
  /\ (rejects "" -> exists v, extractImageLinks htmlText "" = Throw v).
Proof.
  split; [|split].
  - intros baseUrl base H. eexists.
    split; [exact (extractImageLinks_valid _ _ _ H)|].
    intros x. rewrite fresh_In, resolvedUrls_In. simpl. tauto.
  - intros baseUrl v H. unfold extractImageLinks. now rewrite H.
  - intros [v H]. exists v. unfold extractImageLinks. now rewrite H.
Qed.

(** C1.  On a page whose anchors are [a.png], [/b.JPG],
    [https://other.test/c.jpeg?x=1] and [d.gif], in this order, with base
    [https://site.test/page] and the standard resolution of the four
    references, the extractor returns the three image URLs in document
    order: the [.gif] link is left out, [.JPG] matches, the query string
    is kept. *)
Theorem extractImageLinks_example (htmlText : string) (base : URL) :
  map getAttribute_href (querySelectorAll_a_href (parseFromString htmlText))
    = ["a.png"; "/b.JPG"; "https://other.test/c.jpeg?x=1"; "d.gif"] ->
  new_URL "https://site.test/page" None = Normal base ->
  resolves_to base "a.png" "https://site.test/a.png" "/a.png" ->
  resolves_to base "/b.JPG" "https://site.test/b.JPG" "/b.JPG" ->
  resolves_to base "https://other.test/c.jpeg?x=1"
              "https://other.test/c.jpeg?x=1" "/c.jpeg" ->
  resolves_to base "d.gif" "https://site.test/d.gif" "/d.gif" ->
  extractImageLinks htmlText "https://site.test/page" =
    Normal ["https://site.test/a.png"; "https://site.test/b.JPG";
            "https://other.test/c.jpeg?x=1"].
Proof.
  intros Hanchors Hbase (u1 & H1 & T1 & P1) (u2 & H2 & T2 & P2)
         (u3 & H3 & T3 & P3) (u4 & H4 & T4 & P4).
  rewrite (extractImageLinks_valid _ _ _ Hbase).
  destruct (querySelectorAll_a_href (parseFromString htmlText))
    as [|a1 [|a2 [|a3 [|a4 [|a5 r]]]]]; try discriminate.
  injection Hanchors as E1 E2 E3 E4.
  unfold resolvedUrls, resolveAnchor. simpl map at 2.
  rewrite E1, E2, E3, E4, H1, H2, H3, H4. simpl filter_Boolean.
  unfold filter, hasImageSuffix. rewrite P1, P2, P3, P4.
  vm_compute toLowerCase.
  repeat match goal with
         | |- context [existsb ?f ?l] =>
             let b := eval vm_compute in (existsb f l) in
             change (existsb f l) with b
         end.
  cbv iota. simpl map. rewrite T1, T2, T3. reflexivity.
Qed.

End Extractor.

(* ================================================================== *)
(** ** Further properties of the normalizer *)

Section NormalizerMore.
Context {B : Browser}.

Lemma ensureAbsoluteUrl_inv (rawUrl canonical : string) :
  ensureAbsoluteUrl rawUrl = Some canonical ->
  rawUrl <> ""
  /\ ((exists u, new_URL rawUrl None = Normal u /\ canonical = URL_toString u)
      \/ (rejects rawUrl
          /\ exists u,
               new_URL ("https://" ++ rawUrl) None = Normal u
               /\ canonical = URL_toString u)).
Proof.
  unfold ensureAbsoluteUrl, rejects.
  destruct (falsy rawUrl) eqn:Hf; [discriminate|].
  assert (Hne : rawUrl <> "").
  { intros ->. discriminate. }
  destruct (new_URL rawUrl None) as [u|v].
  - intros [= <-]. split; [exact Hne|]. left. now exists u.
  - destruct (new_URL ("https://" ++ rawUrl) None) as [u|v'];
      [|discriminate].
    intros [= <-]. split; [exact Hne|]. right. split; [now exists v|].
    now exists u.
Qed.

(** Every success of the normalizer comes from a non-empty input and from
    one of its two parses, the [https://]-prefixed one only when the
    direct parse throws. *)
Theorem ensureAbsoluteUrl_sound (rawUrl canonical : string) :
  ensureAbsoluteUrl rawUrl = Some canonical ->
  rawUrl <> ""
  /\ ((exists u, new_URL rawUrl None = Normal u /\ canonical = URL_toString u)
      \/ (rejects rawUrl
          /\ exists u,
               new_URL ("https://" ++ rawUrl) None = Normal u
               /\ canonical = URL_toString u)).
Proof. exact (ensureAbsoluteUrl_inv rawUrl canonical). Qed.

Lemma ensureAbsoluteUrl_parses_again (rawUrl url : string) :
  serialization_reparses ->
  ensureAbsoluteUrl rawUrl = Some url ->
  exists base, new_URL url None = Normal base.
Proof.
  intros Hround Hsome.
  destruct (ensureAbsoluteUrl_inv _ _ Hsome)
    as (_ & [(u & Hu & ->) | (_ & u & Hu & ->)]);
    destruct (Hround _ _ Hu) as (u' & Hre & _); now exists u'.
Qed.

(** The URL the submit handler passes on is a base the extractor accepts:
    with a successful response the [try] body of [handleSubmit] yields a
    list of links, the one the extractor returns, and throws nothing. *)
Theorem normalized_url_is_valid_base
    (rawUrl url html : string) (response : Response) :
  serialization_reparses ->
  ensureAbsoluteUrl rawUrl = Some url ->
  ok response = true ->
  text response = Normal html ->
  exists links,
    extractImageLinks html url = Normal links
    /\ fetchLinks url (Normal response) = Normal links.
Proof.
  intros Hround Hsome Hok Htext.
  destruct (ensureAbsoluteUrl_parses_again _ _ Hround Hsome) as (base & Hb).
  eexists. split; [exact (extractImageLinks_valid html url base Hb)|].
  unfold fetchLinks. simpl. rewrite Hok, Htext. simpl.
  exact (extractImageLinks_valid html url base Hb).
Qed.

Lemma falsy_or_null_false (v : option string) :
  falsy_or_null v = false <-> exists url, v = Some url /\ url <> "".
Proof.
  destruct v as [[|c r]|]; simpl; split.
  - discriminate.
  - intros (url & [= <-] & H). congruence.
  - intros _. eexists. split; [reflexivity|discriminate].
  - reflexivity.
  - discriminate.
  - intros (url & H & _). discriminate.
Qed.

(** The two ways [handleSubmit] can start. *)
Lemma handleSubmit_begin_cases (s : AppState) :
  (falsy_or_null (ensureAbsoluteUrl (trim (urlInput s))) = true
   /\ handleSubmit_begin s =
        ({| urlInput := urlInput s; imageUrls := [];
            selectedIndex := 0%Z; loading := loading s;
            error := MSG_INVALID |}, None))
  \/ (exists url,
         ensureAbsoluteUrl (trim (urlInput s)) = Some url
         /\ url <> ""
         /\ handleSubmit_begin s =
              ({| urlInput := urlInput s; imageUrls := [];
                  selectedIndex := 0%Z; loading := true; error := "" |},
               Some url)).
Proof.
  unfold handleSubmit_begin.
  destruct (falsy_or_null (ensureAbsoluteUrl (trim (urlInput s)))) eqn:Hf.
  - left. split; reflexivity.
  - right. apply falsy_or_null_false in Hf. destruct Hf as (url & Hu & Hne).
    exists url. rewrite Hu. repeat split; assumption.
Qed.

(** A submission issues a fetch exactly when the trimmed input normalizes
    to a non-empty string; the fetch is for that string, and the page then
    shows the fetching status over an emptied list. *)
Theorem fetch_issued_iff_normalized (s : AppState) (url : string) :
  (snd (handleSubmit_begin s) = Some url <->
   ensureAbsoluteUrl (trim (urlInput s)) = Some url /\ url <> "")
  /\ (snd (handleSubmit_begin s) = Some url ->
      fst (handleSubmit_begin s) =
        {| urlInput := urlInput s; imageUrls := [];
           selectedIndex := 0%Z; loading := true; error := "" |}
      /\ statusLine (fst (handleSubmit_begin s)) = StatusFetching).
Proof.
  destruct (handleSubmit_begin_cases s)
    as [(Hf & ->) | (url' & Hn & Hne & ->)]; cbn [fst snd].
  - split.
    + split; [discriminate|]. intros [Hn Hne]. rewrite Hn in Hf.
      destruct url; [congruence|discriminate].
    + discriminate.
  - split.
    + split.
      * intros [= <-]. split; assumption.
      * intros [Hn' _]. congruence.
    + intros _. split; reflexivity.
Qed.

End NormalizerMore.

(* ================================================================== *)
(** ** Further properties of the extractor *)

Lemma substring_whole (s : string) : substring 0 (String.length s) s = s.
Proof. induction s as [|c r IH]; simpl; [reflexivity|now rewrite IH]. Qed.

Lemma substring_after (stem s : string) (m : nat) :
  substring (String.length stem) m (stem ++ s) = substring 0 m s.
Proof. induction stem as [|c r IH]; simpl; [reflexivity|exact IH]. Qed.

Lemma length_append (a b : string) :
  String.length (a ++ b) = String.length a + String.length b.
Proof. induction a as [|c r IH]; simpl; [reflexivity|now rewrite IH]. Qed.

Lemma substring_split (s : string) (k m : nat) :
  k + m = String.length s -> s = substring 0 k s ++ substring k m s.
Proof.
  revert k m. induction s as [|c r IH]; intros k m H; simpl in H.
  - destruct k, m; try discriminate. reflexivity.
  - destruct k as [|k].
    + simpl in H. subst m. simpl. now rewrite substring_whole.
    + simpl. f_equal. apply IH. now injection H.
Qed.

(** [endsWith] holds exactly of the strings that are a stem followed by
    the suffix. *)
Lemma endsWith_spec (s suffix : string) :
  endsWith s suffix = true <-> exists stem, s = stem ++ suffix.
Proof.
  unfold endsWith. rewrite andb_true_iff, Nat.leb_le, String.eqb_eq. split.
  - intros [Hle Hsub].
    exists (substring 0 (String.length s - String.length suffix) s).
    rewrite <- Hsub at 2. apply substring_split. lia.
  - intros (stem & ->). rewrite length_append. split; [lia|].
    replace (String.length stem + String.length suffix - String.length suffix)
      with (String.length stem) by lia.
    rewrite substring_after. apply substring_whole.
Qed.

Section ExtractorMore.
Context {B : Browser}.

(** A URL passes the image filter exactly when its lower-cased path is a
    stem followed by [.png], [.jpg] or [.jpeg]. *)
Theorem hasImageSuffix_spec (url : URL) :
  hasImageSuffix url = true <->
  exists stem,
    toLowerCase (URL_pathname url) = stem ++ ".png"
    \/ toLowerCase (URL_pathname url) = stem ++ ".jpg"
    \/ toLowerCase (URL_pathname url) = stem ++ ".jpeg".
Proof.
  unfold hasImageSuffix, IMAGE_SUFFIXES. cbn [existsb].
  rewrite !orb_true_iff, !endsWith_spec. cbn [append]. split.
  - intros [(stem & H) | [(stem & H) | [(stem & H) | H]]];
      try discriminate; exists stem; auto.
  - intros (stem & [H | [H | H]]); [left|right; left|right; right; left];
      now exists stem.
Qed.

End ExtractorMore.

(* ================================================================== *)
(** ** Further properties of the extractor and of the set *)

Lemma fresh_of_NoDup (xs seen : list string) :
  NoDup xs -> (forall x, In x xs -> ~ In x seen) -> fresh seen xs = xs.
Proof.
  revert seen. induction xs as [|a r IH]; intros seen Hnd Hdis; simpl;
    [reflexivity|].
  inversion Hnd as [|? ? Ha Hr]; subst.
  rewrite (proj2 (Set_has_not_In seen a)) by (apply Hdis; now left).
  f_equal. apply IH; [assumption|].
  intros x Hx Hin. apply in_app_iff in Hin. destruct Hin as [Hin | [-> | []]].
  - apply (Hdis x); [now right|assumption].
  - contradiction.
Qed.

Lemma fresh_length (xs seen : list string) :
  List.length (fresh seen xs) <= List.length xs.
Proof.
  revert seen. induction xs as [|a r IH]; intros seen; simpl; [lia|].
  destruct (Set_has seen a); simpl.
  - specialize (IH seen). lia.
  - specialize (IH (seen ++ [a])%list). lia.
Qed.

Lemma fresh_nil_iff (xs : list string) : fresh [] xs = [] <-> xs = [].
Proof. destruct xs; simpl; split; congruence. Qed.

(** Building a set from a list without duplicates and listing it gives
    the list back, order included; so deduplicating twice is
    deduplicating once. *)
Theorem new_Set_fixed_points (xs : list string) :
  (NoDup xs -> Array_from_Set (new_Set xs) = xs)
  /\ Array_from_Set (new_Set (Array_from_Set (new_Set xs)))
     = Array_from_Set (new_Set xs).
Proof.
  unfold Array_from_Set. rewrite !new_Set_fresh. split.
  - intros Hnd. apply fresh_of_NoDup; [assumption|]. intros x _ [].
  - apply fresh_of_NoDup; [apply fresh_NoDup|]. intros x _ [].
Qed.

Lemma filter_Boolean_length {A} (l : list (option A)) :
  List.length (filter_Boolean l) <= List.length l.
Proof. induction l as [|[a|] r IH]; simpl; lia. Qed.

Section ExtractorBounds.
Context {B : Browser}.

Lemma extractImageLinks_normal_inv (htmlText baseUrl : string)
    (links : list string) :
  extractImageLinks htmlText baseUrl = Normal links ->
  exists base,
    new_URL baseUrl None = Normal base
    /\ links =
       fresh [] (resolvedUrls base
                   (querySelectorAll_a_href (parseFromString htmlText))).
Proof.
  intros H. destruct (new_URL baseUrl None) as [base|v] eqn:Hb.
  - exists base. split; [reflexivity|].
    rewrite (extractImageLinks_valid _ _ _ Hb) in H. congruence.
  - unfold extractImageLinks in H. rewrite Hb in H. discriminate.
Qed.

Lemma resolvedUrls_length (base : URL) (anchors : list Element) :
  List.length (resolvedUrls base anchors) <= List.length anchors.
Proof.
  unfold resolvedUrls. rewrite length_map.
  etransitivity; [apply filter_length_le|].
  etransitivity; [apply filter_Boolean_length|]. now rewrite length_map.
Qed.

(** The extractor returns at most one link per anchor of the page. *)
Theorem extractImageLinks_at_most_anchors (htmlText baseUrl : string)
    (links : list string) :
  extractImageLinks htmlText baseUrl = Normal links ->
  List.length links
  <= List.length (querySelectorAll_a_href (parseFromString htmlText)).
Proof.
  intros H. apply extractImageLinks_normal_inv in H.
  destruct H as (base & _ & ->).
  etransitivity; [apply fresh_length|apply resolvedUrls_length].
Qed.

End ExtractorBounds.

(* ================================================================== *)
(** ** Further properties of the submit handler *)

Lemma append_inj_l (p x y : string) : p ++ x = p ++ y -> x = y.
Proof.
  induction p as [|c r IH]; simpl; [auto|]. intros [= H]. now apply IH.
Qed.

Lemma number_toString_inj (n m : nat) :
  number_toString n = number_toString m -> n = m.
Proof.
  unfold number_toString. intros H.
  assert (Hu : Nat.to_uint n = Nat.to_uint m).
  { apply (f_equal NilEmpty.uint_of_string) in H.
    rewrite !NilEmpty.usu in H. congruence. }
  apply (f_equal Nat.of_uint) in Hu.
  now rewrite !DecimalNat.Unsigned.of_to in Hu.
Qed.

Section SubmitMore.
Context {B : Browser}.

Lemma fetchLinks_normal_inv (url : string) (o : completion Response)
    (links : list string) :
  fetchLinks url o = Normal links ->
  exists response html,
    o = Normal response
    /\ ok response = true
    /\ text response = Normal html
    /\ extractImageLinks html url = Normal links.
Proof.
  unfold fetchLinks. destruct o as [response|v]; simpl; [|discriminate].
  destruct (ok response) eqn:Hok; simpl; [|discriminate].
  destruct (text response) as [html|v] eqn:Ht; simpl; [|discriminate].
  intros H. exists response, html. auto.
Qed.

Lemma handleSubmit_resume_normal (url : string) (o : completion Response)
    (links : list string) (s : AppState) :
  fetchLinks url o = Normal links ->
  handleSubmit_resume url o s =
    {| urlInput := urlInput s; imageUrls := links;
       selectedIndex := selectedIndex s; loading := false;
       error := if (length_of links =? 0)%Z then MSG_NO_LINKS else error s |}.
Proof.
  intros H. unfold handleSubmit_resume. rewrite H.
  destruct (length_of links =? 0)%Z; reflexivity.
Qed.

Lemma handleSubmit_resume_throw (url : string) (o : completion Response)
    (v : thrown) (s : AppState) :
  fetchLinks url o = Throw v ->
  handleSubmit_resume url o s =
    {| urlInput := urlInput s; imageUrls := imageUrls s;
       selectedIndex := selectedIndex s; loading := false;
       error := match v with
                | ErrorInstance message => message
                | NotAnError => MSG_FETCH_FALLBACK
                end |}.
Proof. intros H. unfold handleSubmit_resume. rewrite H. reflexivity. Qed.

(** Settling a request always switches [loading] off and leaves the text
    field and the selection alone; the list changes only when the response
    is successful, its body is read and the extractor returns, and then it
    becomes the extractor's result. *)
Theorem failed_requests_keep_list (url : string) (o : completion Response)
    (s : AppState) :
  let s' := handleSubmit_resume url o s in
  urlInput s' = urlInput s
  /\ selectedIndex s' = selectedIndex s
  /\ loading s' = false
  /\ (imageUrls s' <> imageUrls s ->
      exists response html,
        o = Normal response
        /\ ok response = true
        /\ text response = Normal html
        /\ extractImageLinks html url = Normal (imageUrls s')).
Proof.
  cbv zeta. destruct (fetchLinks url o) as [links|v] eqn:Hf.
  - rewrite (handleSubmit_resume_normal _ _ _ s Hf). simpl.
    repeat split. intros _. now apply fetchLinks_normal_inv.
  - rewrite (handleSubmit_resume_throw _ _ _ s Hf). simpl.
    repeat split. congruence.
Qed.

(** An unsuccessful response is reported with its status code, whatever
    its body and without touching list or selection; responses with
    different codes get different messages. *)
Theorem http_failure_message (url : string) (response : Response)
    (s : AppState) :
  ok response = false ->
  handleSubmit_resume url (Normal response) s =
    {| urlInput := urlInput s; imageUrls := imageUrls s;
       selectedIndex := selectedIndex s; loading := false;
       error := "Request failed with status "
                ++ number_toString (status response) |}
  /\ forall url' response' s',
       ok response' = false ->
       error (handleSubmit_resume url' (Normal response') s')
       = error (handleSubmit_resume url (Normal response) s) ->
       status response' = status response.
Proof.
  intros Hok.
  assert (Hshape : forall u r t, ok r = false ->
            handleSubmit_resume u (Normal r) t =
              {| urlInput := urlInput t; imageUrls := imageUrls t;
                 selectedIndex := selectedIndex t; loading := false;
                 error := "Request failed with status "
                          ++ number_toString (status r) |}).
  { intros u r t Hr.
    apply (handleSubmit_resume_throw u (Normal r)
             (ErrorInstance ("Request failed with status "
                             ++ number_toString (status r))) t).
    unfold fetchLinks. simpl. now rewrite Hr. }
  split; [now apply Hshape|].
  intros url' response' s' Hok' Heq.
  rewrite (Hshape _ _ _ Hok), (Hshape _ _ _ Hok') in Heq.
  cbn [error] in Heq. apply append_inj_l in Heq.
  now apply number_toString_inj.
Qed.

(** With a valid base the extractor returns the empty list exactly when
    no anchor qualifies; a successful response for such a page leaves the
    list empty and shows the no-links message. *)
Theorem no_image_links_message (url html : string) (base : URL)
    (response : Response) (s : AppState) :
  new_URL url None = Normal base ->
  ok response = true ->
  text response = Normal html ->
  let anchors := querySelectorAll_a_href (parseFromString html) in
  (extractImageLinks html url = Normal [] <-> resolvedUrls base anchors = [])
  /\ (resolvedUrls base anchors = [] ->
      handleSubmit_resume url (Normal response) s =
        {| urlInput := urlInput s; imageUrls := [];
           selectedIndex := selectedIndex s; loading := false;
           error := MSG_NO_LINKS |}
      /\ statusLine (handleSubmit_resume url (Normal response) s)
         = StatusError MSG_NO_LINKS).
Proof.
  intros Hb Hok Ht. cbv zeta.
  rewrite (extractImageLinks_valid html url base Hb). split.
  - rewrite <- fresh_nil_iff. split; congruence.
  - intros Hnone.
    assert (Hf : fetchLinks url (Normal response) = Normal []).
    { unfold fetchLinks. simpl. rewrite Hok, Ht. simpl.
      rewrite (extractImageLinks_valid html url base Hb), Hnone.
      reflexivity. }
    rewrite (handleSubmit_resume_normal _ _ _ s Hf). split; reflexivity.
Qed.

Lemma handleSubmit_resume_text (url : string) (o : completion Response)
    (s : AppState) :
  urlInput (handleSubmit_resume url o s) = urlInput s.
Proof.
  destruct (fetchLinks url o) as [links|v] eqn:Hf.
  - now rewrite (handleSubmit_resume_normal _ _ _ s Hf).
  - now rewrite (handleSubmit_resume_throw _ _ _ s Hf).
Qed.

Lemma handleSubmit_resume_outcome (url : string) (o : completion Response)
    (s : AppState) :
  loading (handleSubmit_resume url o s) = false
  /\ (imageUrls (handleSubmit_resume url o s) = imageUrls s
      \/ exists html,
           extractImageLinks html url
           = Normal (imageUrls (handleSubmit_resume url o s))).
Proof.
  destruct (fetchLinks url o) as [links|v] eqn:Hf.
  - rewrite (handleSubmit_resume_normal _ _ _ s Hf). simpl.
    split; [reflexivity|]. right.
    destruct (fetchLinks_normal_inv _ _ _ Hf) as (_ & html & _ & _ & _ & H).
    now exists html.
  - rewrite (handleSubmit_resume_throw _ _ _ s Hf). simpl. auto.
Qed.

End SubmitMore.

(* ================================================================== *)
(** ** Further properties of navigation *)

Lemma setSelectedIndex_eq_iff (v : Z) (s : AppState) :
  setSelectedIndex v s = s <-> v = selectedIndex s.
Proof.
  destruct s as [u l i ld e]. unfold setSelectedIndex. simpl. split.
  - intros [= H]. exact H.
  - intros ->. reflexivity.
Qed.

Lemma handlePrev_no_op_iff (s : AppState) :
  handlePrev s = s <-> (selectedIndex s <= 0)%Z.
Proof.
  unfold handlePrev. rewrite setSelectedIndex_eq_iff. cbv zeta.
  rewrite Z.gtb_ltb. destruct (Z.ltb_spec 0 (selectedIndex s)); lia.
Qed.

Lemma handleNext_no_op_iff (s : AppState) :
  handleNext s = s <-> (length_of (imageUrls s) - 1 <= selectedIndex s)%Z.
Proof.
  unfold handleNext. rewrite setSelectedIndex_eq_iff. cbv zeta.
  destruct (Z.ltb_spec (selectedIndex s) (length_of (imageUrls s) - 1)); lia.
Qed.

Lemma handleNext_after_set (m : Z) (s : AppState) :
  handleNext (setSelectedIndex m s) =
    setSelectedIndex
      (if (m <? length_of (imageUrls s) - 1)%Z then (m + 1)%Z else m) s.
Proof. reflexivity. Qed.

Lemma handlePrev_after_set (m : Z) (s : AppState) :
  handlePrev (setSelectedIndex m s) =
    setSelectedIndex (if (m >? 0)%Z then (m - 1)%Z else m) s.
Proof. reflexivity. Qed.

(** Inside the list, next undoes previous and previous undoes next. *)
Theorem next_prev_round_trip (s : AppState) :
  ((0 <= selectedIndex s < length_of (imageUrls s) - 1)%Z ->
   handlePrev (handleNext s) = s)
  /\ ((0 < selectedIndex s < length_of (imageUrls s))%Z ->
      handleNext (handlePrev s) = s).
Proof.
  split; intros H.
  - unfold handleNext at 1. cbv zeta.
    rewrite handlePrev_after_set, setSelectedIndex_eq_iff.
    destruct (Z.ltb_spec (selectedIndex s) (length_of (imageUrls s) - 1));
      [|lia].
    rewrite Z.gtb_ltb. destruct (Z.ltb_spec 0 (selectedIndex s + 1)); lia.
  - unfold handlePrev at 1. cbv zeta.
    rewrite handleNext_after_set, setSelectedIndex_eq_iff.
    rewrite Z.gtb_ltb. destruct (Z.ltb_spec 0 (selectedIndex s)); [|lia].
    destruct (Z.ltb_spec (selectedIndex s - 1)
                (length_of (imageUrls s) - 1)); lia.
Qed.

(** Pressing next [k] times from a selection not past the end moves it
    [k] places down, stopping at the last index; pressing previous [k]
    times from a non-negative selection moves it [k] places up, stopping
    at 0.  Nothing else in the state changes. *)
Theorem repeated_navigation (s : AppState) (k : nat) :
  ((selectedIndex s <= length_of (imageUrls s) - 1)%Z ->
   Nat.iter k handleNext s =
     setSelectedIndex
       (Z.min (selectedIndex s + Z.of_nat k) (length_of (imageUrls s) - 1))
       s)
  /\ ((0 <= selectedIndex s)%Z ->
      Nat.iter k handlePrev s =
        setSelectedIndex (Z.max (selectedIndex s - Z.of_nat k) 0) s).
Proof.
  split; intros H.
  - induction k as [|k IH].
    + simpl Nat.iter. symmetry. apply setSelectedIndex_eq_iff. lia.
    + simpl Nat.iter. rewrite IH, handleNext_after_set. f_equal.
      destruct (Z.ltb_spec
                  (Z.min (selectedIndex s + Z.of_nat k)
                         (length_of (imageUrls s) - 1))
                  (length_of (imageUrls s) - 1)); lia.
  - induction k as [|k IH].
    + simpl Nat.iter. symmetry. apply setSelectedIndex_eq_iff. lia.
    + simpl Nat.iter. rewrite IH, handlePrev_after_set. f_equal.
      rewrite Z.gtb_ltb.
      destruct (Z.ltb_spec 0 (Z.max (selectedIndex s - Z.of_nat k) 0)); lia.
Qed.

Lemma handleKeyDown_shape (key : string) (s : AppState) :
  exists i, handleKeyDown key s = setSelectedIndex i s.
Proof.
  unfold handleKeyDown.
  destruct (length_of (imageUrls s) =? 0)%Z;
    [exists (selectedIndex s); now rewrite setSelectedIndex_same|].
  destruct (String.eqb key "ArrowUp"); [eexists; reflexivity|].
  destruct (String.eqb key "ArrowDown"); [eexists; reflexivity|].
  exists (selectedIndex s). now rewrite setSelectedIndex_same.
Qed.

(** *** The sidebar *)

Lemma listItems_from_links (index selected : Z) (links : list string) :
  map fst (listItems_from index links selected) = links.
Proof.
  revert index. induction links as [|l r IH]; intros index; simpl;
    [reflexivity|]. now rewrite IH.
Qed.

Lemma listItems_from_past (index selected : Z) (links : list string) :
  (selected < index)%Z ->
  filter snd (listItems_from index links selected) = [].
Proof.
  revert index. induction links as [|l r IH]; intros index H; simpl;
    [reflexivity|].
  destruct (Z.eqb_spec index selected); [lia|]. apply IH. lia.
Qed.

Lemma listItems_from_selected (index selected : Z) (links : list string)
    (url : string) :
  (index <= selected)%Z ->
  nth_error links (Z.to_nat (selected - index)) = Some url ->
  filter snd (listItems_from index links selected) = [(url, true)].
Proof.
  revert index. induction links as [|l r IH]; intros index Hle Hnth.
  - destruct (Z.to_nat (selected - index)); discriminate.
  - simpl. destruct (Z.eqb_spec index selected) as [-> | Hne].
    + rewrite Z.sub_diag in Hnth. simpl in Hnth. injection Hnth as ->.
      simpl. now rewrite listItems_from_past by lia.
    + apply IH; [lia|].
      replace (Z.to_nat (selected - index))
        with (S (Z.to_nat (selected - (index + 1)))) in Hnth by lia.
      exact Hnth.
Qed.

(* ================================================================== *)
(** ** Further properties of the transition system *)

Section ComponentMore.
Context {B : Browser}.

Lemma step_frame (c c' : Config) (e : event) :
  step c e c' ->
  ((forall v, e <> Change v) -> urlInput (fst c') = urlInput (fst c))
  /\ (e <> Submit -> (forall o, e <> Settle o) ->
      snd c' = snd c
      /\ imageUrls (fst c') = imageUrls (fst c)
      /\ loading (fst c') = loading (fst c)
      /\ error (fst c') = error (fst c))
  /\ ((forall i, e <> Select i) -> e <> ClickPrev -> e <> ClickNext ->
      (forall key, e <> KeyDown key) -> e <> Submit ->
      selectedIndex (fst c') = selectedIndex (fst c)).
Proof.
  intros Hstep.
  destruct Hstep as [s p v Hl | s p Hl | s url o | s p i Hi | s p | s p
                     | s p key]; cbn [fst snd].
  - split; [intros H; now destruct (H v)|]. split; intros; repeat split.
  - split; [|split].
    + intros _. destruct (handleSubmit_begin_cases s)
        as [(_ & ->) | (u & _ & _ & ->)]; reflexivity.
    + intros H. now destruct H.
    + intros _ _ _ _ H. now destruct H.
  - split; [|split].
    + intros _. apply handleSubmit_resume_text.
    + intros _ H. now destruct (H o).
    + intros _ _ _ _ _. apply handleSubmit_resume_index.
  - split; [reflexivity|]. split; [intros; repeat split|].
    intros H. now destruct (H i).
  - split; [reflexivity|]. split; [intros; repeat split|].
    intros _ H. now destruct H.
  - split; [reflexivity|]. split; [intros; repeat split|].
    intros _ _ H. now destruct H.
  - destruct (handleKeyDown_shape key s) as (i & ->).
    split; [reflexivity|]. split; [intros; repeat split|].
    intros _ _ _ H. now destruct (H key).
Qed.

(** Each event changes only the part of the state it is about: the text
    field changes on typing only; list, error, [loading] and the request
    in flight change on submitting and settling only; typing and settling
    never move the selection. *)
Theorem events_touch_their_own_state (c c' : Config) (e : event) :
  step c e c' ->
  ((forall v, e <> Change v) -> urlInput (fst c') = urlInput (fst c))
  /\ (e <> Submit -> (forall o, e <> Settle o) ->
      snd c' = snd c
      /\ imageUrls (fst c') = imageUrls (fst c)
      /\ loading (fst c') = loading (fst c)
      /\ error (fst c') = error (fst c))
  /\ ((forall i, e <> Select i) -> e <> ClickPrev -> e <> ClickNext ->
      (forall key, e <> KeyDown key) -> e <> Submit ->
      selectedIndex (fst c') = selectedIndex (fst c)).
Proof. exact (step_frame c c' e). Qed.

Lemma extracted_links_ok (html url : string) (links : list string) :
  extractImageLinks html url = Normal links ->
  NoDup links
  /\ forall x, In x links ->
               exists u, x = URL_toString u /\ hasImageSuffix u = true.
Proof.
  intros H. apply extractImageLinks_normal_inv in H.
  destruct H as (base & _ & ->). split; [apply fresh_NoDup|].
  intros x Hx. apply fresh_In in Hx. destruct Hx as [Hx _].
  apply resolvedUrls_In in Hx. destruct Hx as (_ & u & _ & _ & Hs & ->).
  now exists u.
Qed.

Lemma step_preserves_display_ok (c c' : Config) (e : event) :
  display_ok c -> step c e c' -> display_ok c'.
Proof.
  intros Hok Hstep.
  assert (Hframe := step_frame c c' e Hstep).
  destruct Hstep as [s p v Hl | s p Hl | s url o | s p i Hi | s p | s p
                     | s p key];
    try (destruct Hframe as (_ & Hf & _);
         destruct Hf as (Hp & Hi' & Hl' & He'); [discriminate..|];
         unfold display_ok in *; cbn [fst snd] in *;
         rewrite Hi', Hl', He'; exact Hok).
  - destruct Hok as (Hload & Herr & Hnd & Himg & Hreq).
    cbn [fst snd] in *.
    assert (Hp : p = None).
    { destruct p as [u|]; [|reflexivity].
      assert (loading s = true) by (apply Hload; discriminate). congruence. }
    subst p. unfold display_ok.
    destruct (handleSubmit_begin_cases s)
      as [(_ & ->) | (u & Hn & _ & ->)]; cbn [fst snd imageUrls loading error].
    + rewrite Hl. repeat split; try congruence; try constructor.
      intros x [].
    + repeat split; try congruence; try constructor.
      * intros x [].
      * intros url [= <-]. now exists (trim (urlInput s)).
  - unfold display_ok. cbn [fst snd].
    destruct Hok as (_ & _ & Hnd & Himg & _). cbn [fst snd] in *.
    destruct (handleSubmit_resume_outcome url o s) as (Hl & Hlist).
    rewrite Hl. split; [split; [discriminate|congruence]|].
    split; [congruence|].
    destruct Hlist as [-> | (html & Hx)]; [now split; [|split; [|discriminate]]|].
    destruct (extracted_links_ok _ _ _ Hx) as (Hnd' & Himg').
    split; [exact Hnd'|]. split; [exact Himg'|discriminate].
Qed.

Lemma reachable_display_ok (c : Config) : reachable c -> display_ok c.
Proof.
  induction 1 as [|c e c' _ IH Hstep].
  - unfold display_ok; cbn. repeat split; try congruence; try constructor.
    intros x [].
  - exact (step_preserves_display_ok c c' e IH Hstep).
Qed.

End ComponentMore.

Section ReachableMore.
Context {B : Browser}.

(** In every reachable configuration [loading] is on exactly while a
    request is in flight, and while one is the list is empty, no error is
    set and the selection is 0. *)
Theorem loading_iff_request_in_flight (c : Config) :
  reachable c ->
  (loading (fst c) = true <-> snd c <> None)
  /\ (snd c <> None ->
      imageUrls (fst c) = []
      /\ error (fst c) = ""
      /\ selectedIndex (fst c) = 0%Z
      /\ statusLine (fst c) = StatusFetching).
Proof.
  intros Hr.
  destruct (reachable_display_ok c Hr) as (Hload & Herr & _).
  destruct (reachable_selection_ok c Hr) as (_ & Hnil & Hpend).
  split; [exact Hload|]. intros Hp.
  split; [auto|]. split; [auto|]. split; [auto|].
  unfold statusLine. now rewrite (proj2 Hload Hp).
Qed.

(** In every reachable configuration the displayed list has no
    duplicates, and each of its entries is the serialization of a URL that
    passes the image filter. *)
Theorem displayed_links_are_distinct_images (c : Config) :
  reachable c ->
  NoDup (imageUrls (fst c))
  /\ forall x, In x (imageUrls (fst c)) ->
               exists u, x = URL_toString u /\ hasImageSuffix u = true.
Proof.
  intros Hr. destruct (reachable_display_ok c Hr) as (_ & _ & Hnd & Himg & _).
  split; assumption.
Qed.

Lemma selectedImage_in_range (s : AppState) :
  (0 <= selectedIndex s < length_of (imageUrls s))%Z ->
  exists url,
    selectedImage s = Some url
    /\ nth_error (imageUrls s) (Z.to_nat (selectedIndex s)) = Some url.
Proof.
  intros H. unfold selectedImage, array_get.
  destruct (Z.eqb_spec (length_of (imageUrls s)) 0); [lia|].
  destruct (Z.ltb_spec (selectedIndex s) 0); [lia|].
  destruct (nth_error (imageUrls s) (Z.to_nat (selectedIndex s)))
    as [url|] eqn:Hn; [now exists url|].
  apply nth_error_None in Hn. unfold length_of in H. lia.
Qed.

(** In every reachable configuration with a non-empty list the selected
    image is defined and is an entry of the list, the sidebar shows the
    links of the list in order, and exactly one of its items is marked
    selected: the one of the selected image. *)
Theorem selected_item_unique (c : Config) :
  reachable c ->
  imageUrls (fst c) <> [] ->
  exists url,
    selectedImage (fst c) = Some url
    /\ In url (imageUrls (fst c))
    /\ map fst (listItems (fst c)) = imageUrls (fst c)
    /\ filter snd (listItems (fst c)) = [(url, true)].
Proof.
  intros Hr Hne.
  destruct (reachable_selection_ok c Hr) as (Hin & _ & _).
  specialize (Hin Hne).
  destruct (selectedImage_in_range (fst c) Hin) as (url & Hsel & Hnth).
  exists url. split; [exact Hsel|].
  split; [exact (nth_error_In _ _ Hnth)|].
  split; [apply listItems_from_links|].
  apply listItems_from_selected; [lia|]. now rewrite Z.sub_0_r.
Qed.

(** In every reachable configuration with a non-empty list a navigation
    button is disabled exactly when its handler would change nothing. *)
Theorem disabled_buttons_are_noops (c : Config) :
  reachable c ->
  imageUrls (fst c) <> [] ->
  (prevDisabled (fst c) = true <-> handlePrev (fst c) = fst c)
  /\ (nextDisabled (fst c) = true <-> handleNext (fst c) = fst c).
Proof.
  intros Hr Hne.
  destruct (reachable_selection_ok c Hr) as (Hin & _ & _).
  specialize (Hin Hne). unfold prevDisabled, nextDisabled.
  rewrite handlePrev_no_op_iff, handleNext_no_op_iff, !Z.eqb_eq. lia.
Qed.

(** A successful response settles a reachable request without an
    exception: the list becomes the extractor's result with its first
    entry selected, and the status shows the number of images found, or
    the no-links message when there are none. *)
Theorem successful_load_display (s : AppState) (url html : string)
    (response : Response) :
  serialization_reparses ->
  reachable (s, Some url) ->
  ok response = true ->
  text response = Normal html ->
  exists links,
    extractImageLinks html url = Normal links
    /\ let s' := handleSubmit_resume url (Normal response) s in
       imageUrls s' = links
       /\ selectedIndex s' = 0%Z
       /\ selectedImage s' = hd_error links
       /\ statusLine s' =
            match links with
            | [] => StatusError MSG_NO_LINKS
            | _ :: _ => StatusFound (length_of links)
            end.
Proof.
  intros Hround Hr Hok Ht.
  destruct (reachable_display_ok _ Hr) as (_ & Herr & _ & _ & Hreq).
  destruct (reachable_selection_ok _ Hr) as (_ & Hnil & Hpend).
  cbn [fst snd] in *.
  assert (Hsome : Some url <> None) by discriminate.
  specialize (Herr Hsome). specialize (Hnil (Hpend Hsome)).
  destruct (Hreq url eq_refl) as (rawUrl & Hraw).
  destruct (ensureAbsoluteUrl_parses_again _ _ Hround Hraw) as (base & Hb).
  pose proof (extractImageLinks_valid html url base Hb) as Hx.
  eexists. split; [exact Hx|]. cbv zeta.
  assert (Hf : fetchLinks url (Normal response) = Normal
                 (fresh [] (resolvedUrls base
                    (querySelectorAll_a_href (parseFromString html))))).
  { unfold fetchLinks. simpl. rewrite Hok, Ht. simpl. exact Hx. }
  rewrite (handleSubmit_resume_normal _ _ _ s Hf), Herr, Hnil.
  destruct (fresh [] _) as [|x l]; [repeat split|].
  pose proof (length_of_cons_pos x l) as Hpos.
  unfold statusLine, selectedImage, array_get.
  cbn [imageUrls selectedIndex loading error].
  destruct (Z.eqb_spec (length_of (x :: l)) 0); [lia|].
  destruct (Z.gtb_spec (length_of (x :: l)) 0); [|lia].
  repeat split.
Qed.

End ReachableMore.

(* ================================================================== *)
(** ** The reference browser meets the URL Standard facts used *)

Module RefFacts.
Import Ref.

Ltac all_ascii c :=
  destruct c as [[] [] [] [] [] [] [] []]; vm_compute; try reflexivity;
  try discriminate.

Lemma lower_ascii_idem (c : ascii) :
  lower_ascii (lower_ascii c) = lower_ascii c.
Proof. all_ascii c. Qed.

Lemma lower_scheme_char (c : ascii) :
  is_scheme_char c = true -> is_scheme_char (lower_ascii c) = true.
Proof. all_ascii c. Qed.

Lemma lower_alpha (c : ascii) :
  is_alpha c = true -> is_alpha (lower_ascii c) = true.
Proof. all_ascii c. Qed.

Lemma lower_host_char (c : ascii) :
  is_host_char c = true -> is_host_char (lower_ascii c) = true.
Proof. all_ascii c. Qed.

Lemma host_char_inside (c : ascii) :
  is_host_char c = true -> not_authority_end c = true.
Proof. all_ascii c. Qed.

Lemma authority_end_slash (c : ascii) :
  not_authority_end c = false -> not_path_end c = true -> c = "/"%char.
Proof. all_ascii c. Qed.

Lemma lower_idem (l : list ascii) : lower (lower l) = lower l.
Proof.
  unfold lower. rewrite map_map. apply map_ext. apply lower_ascii_idem.
Qed.

Lemma forallb_lower (p : ascii -> bool) (l : list ascii) :
  (forall c, p c = true -> p (lower_ascii c) = true) ->
  forallb p l = true -> forallb p (lower l) = true.
Proof.
  intros Hp. induction l as [|c r IH]; simpl; [reflexivity|].
  rewrite !andb_true_iff. intros [Hc Hr]. split; auto.
Qed.

(** *** [span] *)

Lemma span_spec (p : ascii -> bool) (l a b : list ascii) :
  span p l = (a, b) ->
  l = (a ++ b)%list /\ forallb p a = true /\ ends_span p b.
Proof.
  revert a b. induction l as [|c r IH]; intros a b; simpl.
  - intros [= <- <-]. simpl. auto.
  - destruct (p c) eqn:Hc.
    + destruct (span p r) as [a' b'] eqn:Hs. intros [= <- <-].
      destruct (IH a' b' eq_refl) as (-> & Ha & Hb).
      simpl. rewrite Hc, Ha. auto.
    + intros [= <- <-]. simpl. auto.
Qed.

Lemma span_app (p : ascii -> bool) (a b : list ascii) :
  forallb p a = true -> ends_span p b -> span p (a ++ b) = (a, b).
Proof.
  intros Ha Hb. induction a as [|c r IH]; simpl in *.
  - destruct b as [|c b]; [reflexivity|]. simpl in *. now rewrite Hb.
  - apply andb_true_iff in Ha. destruct Ha as [Hc Hr].
    rewrite Hc, (IH Hr). reflexivity.
Qed.

(** *** Parsing builds well-formed URLs *)

Lemma split_scheme_spec (l sch rest : list ascii) :
  split_scheme l = Some (sch, rest) ->
  forallb is_scheme_char sch = true
  /\ (exists c r, sch = c :: r /\ is_alpha c = true)
  /\ lower sch = sch.
Proof.
  unfold split_scheme. destruct (span is_scheme_char l) as [s r] eqn:Hs.
  apply span_spec in Hs. destruct Hs as (_ & Hchars & _).
  destruct s as [|c s']; [discriminate|].
  destruct r as [|d r']; [discriminate|].
  destruct (Ascii.eqb d ":" && is_alpha c) eqn:Hd; [|discriminate].
  apply andb_true_iff in Hd. destruct Hd as [_ Hc].
  intros [= <- <-]. split; [|split].
  - apply (forallb_lower _ (c :: s')); [apply lower_scheme_char|assumption].
  - simpl. eexists _, _. split; [reflexivity|now apply lower_alpha].
  - apply (lower_idem (c :: s')).
Qed.

Lemma parse_tail_spec (l p : list ascii) (q f : option (list ascii)) :
  parse_tail l = (p, q, f) ->
  forallb not_path_end p = true
  /\ (forall x, q = Some x -> forallb not_hash x = true)
  /\ (p = [] \/ exists c r t, p = c :: r /\ l = c :: t).
Proof.
  unfold parse_tail. destruct (span not_path_end l) as [p0 r0] eqn:Hs.
  apply span_spec in Hs. destruct Hs as (Hl & Hp & _).
  assert (Hshape : p0 = [] \/ exists c r t, p0 = c :: r /\ l = c :: t).
  { destruct p0 as [|c r]; [now left|]. right.
    exists c, r, (r ++ r0)%list. now subst l. }
  destruct r0 as [|d t].
  - intros [= <- <- <-]. repeat split; auto. discriminate.
  - destruct (Ascii.eqb d "?").
    + destruct (span not_hash t) as [q1 r'] eqn:Hq1.
      apply span_spec in Hq1. destruct Hq1 as (_ & Hq1 & _).
      intros [= <- <- <-]. repeat split; auto. now intros x [= <-].
    + intros [= <- <- <-]. repeat split; auto. discriminate.
Qed.

Lemma parse_authority_well_formed (sch l : list ascii) (u : url) :
  forallb is_scheme_char sch = true ->
  (exists c r, sch = c :: r /\ is_alpha c = true) ->
  lower sch = sch ->
  parse_authority sch l = Some u -> well_formed u.
Proof.
  intros Hs1 Hs2 Hs3. unfold parse_authority.
  destruct (span not_authority_end l) as [h r] eqn:Hspan.
  apply span_spec in Hspan. destruct Hspan as (_ & _ & Hend).
  destruct h as [|c0 h0]; [discriminate|].
  destruct (forallb is_host_char (c0 :: h0)) eqn:Hh; [|discriminate].
  destruct (parse_tail r) as [[p q] f] eqn:Ht.
  apply parse_tail_spec in Ht. destruct Ht as (Hp & Hq & Hshape).
  intros [= <-]. constructor; cbn [scheme host path query fragment]; auto.
  - apply (forallb_lower _ (c0 :: h0)); [apply lower_host_char|assumption].
  - discriminate.
  - apply (lower_idem (c0 :: h0)).
  - destruct Hshape as [-> | (c & r' & t & -> & ->)].
    + now exists [].
    + simpl in Hend, Hp. apply andb_true_iff in Hp. destruct Hp as [Hc _].
      rewrite (authority_end_slash c Hend Hc). now exists r'.
  - destruct Hshape as [-> | (c & r' & t & -> & _)]; [reflexivity|exact Hp].
Qed.

Lemma parse_absolute_well_formed (l : list ascii) (u : url) :
  parse_absolute l = Some u -> well_formed u.
Proof.
  unfold parse_absolute.
  destruct (split_scheme l) as [[sch r]|] eqn:Hs; [|discriminate].
  apply split_scheme_spec in Hs. destruct Hs as (H1 & H2 & H3).
  destruct (after_slashes r) as [r'|]; [|discriminate].
  now apply parse_authority_well_formed.
Qed.

(** *** A well-formed URL is what its serialization parses to *)

Lemma forallb_host_inside (h : list ascii) :
  forallb is_host_char h = true -> forallb not_authority_end h = true.
Proof.
  induction h as [|c r IH]; simpl; [reflexivity|].
  rewrite !andb_true_iff. intros [Hc Hr].
  split; [now apply host_char_inside|auto].
Qed.

Lemma parse_tail_serialized (p : list ascii) (q f : option (list ascii)) :
  forallb not_path_end p = true ->
  (forall x, q = Some x -> forallb not_hash x = true) ->
  parse_tail (p ++ with_mark "?" q ++ with_mark "#" f) = (p, q, f).
Proof.
  intros Hp Hq. unfold parse_tail.
  rewrite span_app; [|assumption|destruct q, f; reflexivity].
  destruct q as [x|]; simpl.
  - rewrite span_app; [|now apply Hq|destruct f; reflexivity].
    destruct f; reflexivity.
  - destruct f; reflexivity.
Qed.

Lemma parse_absolute_href (u : url) :
  well_formed u -> parse_absolute (href u) = Some u.
Proof.
  intros [Hs1 (c & r & Hs2 & Hc) Hs3 Hh1 Hh2 Hh3 (pr & Hp1) Hp2 Hq].
  destruct u as [sch h p q f]. cbn [scheme host path query fragment] in *.
  unfold parse_absolute, href, split_scheme.
  cbn [scheme host path query fragment].
  rewrite span_app; [|assumption|reflexivity].
  subst sch. simpl app at 1. cbv iota. rewrite Hc. simpl andb. cbv iota.
  rewrite Hs3. simpl after_slashes. cbv iota.
  unfold parse_authority.
  rewrite span_app; [|now apply forallb_host_inside|subst p; reflexivity].
  destruct h as [|c0 h0]; [congruence|].
  rewrite Hh1, parse_tail_serialized, Hh3 by assumption.
  subst p. reflexivity.
Qed.

Lemma reference_rejects_empty : rejects (B := browser) "".
Proof. exists invalid_url. reflexivity. Qed.

Lemma reference_rejects_bare_https : rejects (B := browser) "https://".
Proof. exists invalid_url. reflexivity. Qed.

Lemma reference_reparses : serialization_reparses (B := browser).
Proof.
  intros input u. cbn [new_URL URL_toString browser]. unfold construct.
  destruct (parse_absolute (list_ascii_of_string input)) as [u0|] eqn:Hp;
    [|discriminate].
  intros [= <-]. exists u0.
  rewrite list_ascii_of_string_of_list_ascii.
  rewrite (parse_absolute_href u0 (parse_absolute_well_formed _ _ Hp)).
  split; reflexivity.
Qed.

End RefFacts.

(* ================================================================== *)
(** ** Runs on the reference browser *)

Section Runs.
Existing Instance Ref.browser.

Lemma ensureAbsoluteUrl_direct_run :
  "HTTPS://Example.COM/a?b" <> ""
  /\ new_URL "HTTPS://Example.COM/a?b" None
     = Normal (Sample.https "example.com" "/a" (Some "b"))
  /\ ensureAbsoluteUrl "HTTPS://Example.COM/a?b"
     = Some "https://example.com/a?b".
Proof.
  assert (Hne : "HTTPS://Example.COM/a?b" <> "") by discriminate.
  split; [exact Hne|]. split; [reflexivity|].
  exact (ensureAbsoluteUrl_direct (B := Ref.browser) "HTTPS://Example.COM/a?b"
           (Sample.https "example.com" "/a" (Some "b")) Hne eq_refl).
Defined.

Lemma ensureAbsoluteUrl_prefixed_run :
  rejects "https://"
  /\ rejects "example.com"
  /\ new_URL ("https://" ++ "example.com") None
     = Normal (Sample.https "example.com" "/" None)
  /\ ensureAbsoluteUrl "example.com" = Some "https://example.com/".
Proof.
  assert (H1 : rejects "https://") by (exists Ref.invalid_url; reflexivity).
  assert (H2 : rejects "example.com")
    by (exists Ref.invalid_url; reflexivity).
  split; [exact H1|]. split; [exact H2|]. split; [reflexivity|].
  exact (ensureAbsoluteUrl_prefixed (B := Ref.browser) "example.com"
           (Sample.https "example.com" "/" None) H1 H2 eq_refl).
Defined.

Lemma invalid_input_no_fetch_run :
  ensureAbsoluteUrl (trim (urlInput (Sample.typed "  a b "))) = None
  /\ handleSubmit_begin (Sample.typed "  a b ") =
       ({| urlInput := "  a b "; imageUrls := []; selectedIndex := 0%Z;
           loading := false; error := MSG_INVALID |}, None)
  /\ statusLine (fst (handleSubmit_begin (Sample.typed "  a b ")))
     = StatusError MSG_INVALID.
Proof.
  assert (Hnull :
            ensureAbsoluteUrl (trim (urlInput (Sample.typed "  a b "))) = None)
    by reflexivity.
  split; [exact Hnull|].
  destruct (proj2 (invalid_input_no_fetch (B := Ref.browser) "a b" (Sample.typed "  a b "))
              Hnull) as [Hstate Hshown].
  split; [exact Hstate|exact (Hshown eq_refl)].
Defined.

Lemma ensureAbsoluteUrl_idempotent_run :
  rejects ""
  /\ serialization_reparses
  /\ ensureAbsoluteUrl "Example.com/a?b" = Some "https://example.com/a?b"
  /\ ensureAbsoluteUrl "https://example.com/a?b"
     = Some "https://example.com/a?b".
Proof.
  split; [exact RefFacts.reference_rejects_empty|].
  split; [exact RefFacts.reference_reparses|].
  split; [reflexivity|].
  exact (ensureAbsoluteUrl_idempotent (B := Ref.browser) "Example.com/a?b"
           "https://example.com/a?b" RefFacts.reference_rejects_empty
           RefFacts.reference_reparses eq_refl).
Defined.

Lemma navigation_clamped_run :
  selectedIndex initialState = 0%Z
  /\ handleKeyDown "ArrowUp" initialState = initialState
  /\ selectedIndex Sample.browsing
     = (length_of (imageUrls Sample.browsing) - 1)%Z
  /\ handleKeyDown "ArrowDown" Sample.browsing = Sample.browsing.
Proof.
  split; [reflexivity|].
  split; [exact (proj2 (proj1 (navigation_clamped initialState) eq_refl))|].
  split; [reflexivity|].
  exact (proj2 (proj2 (navigation_clamped Sample.browsing) eq_refl)).
Defined.

Lemma visit_reachable : reachable Sample.visit_next.
Proof.
  apply (reachable_step Sample.visit_loaded ClickNext);
    [|apply step_next].
  apply (reachable_step Sample.visit_submitted
           (Settle (Sample.ok_response Sample.page)));
    [|apply step_settle].
  apply (reachable_step Sample.visit_typed Submit);
    [|exact (step_submit (fst Sample.visit_typed) None eq_refl)].
  apply (reachable_step (initialState, None) (Change "site.test/page"));
    [apply reachable_init|].
  exact (step_change initialState None "site.test/page" eq_refl).
Defined.

Lemma selection_invariant_run :
  reachable Sample.visit_next
  /\ imageUrls (fst Sample.visit_next)
     = ["https://site.test/a.png"; "https://site.test/b.JPG";
        "https://other.test/c.jpeg?x=1"]
  /\ (0 <= selectedIndex (fst Sample.visit_next)
       < length_of (imageUrls (fst Sample.visit_next)))%Z.
Proof.
  split; [exact visit_reachable|]. split; [reflexivity|].
  apply (proj1 (selection_invariant (B := Ref.browser) Sample.visit_next visit_reachable)).
  discriminate.
Defined.

Lemma extractImageLinks_example_run :
  extractImageLinks Sample.page "https://site.test/page" =
    Normal ["https://site.test/a.png"; "https://site.test/b.JPG";
            "https://other.test/c.jpeg?x=1"].
Proof.
  apply (extractImageLinks_example (B := Ref.browser) Sample.page Sample.site_page).
  - reflexivity.
  - reflexivity.
  - exists (Sample.https "site.test" "/a.png" None). repeat split.
  - exists (Sample.https "site.test" "/b.JPG" None). repeat split.
  - exists (Sample.https "other.test" "/c.jpeg" (Some "x=1")). repeat split.
  - exists (Sample.https "site.test" "/d.gif" None). repeat split.
Defined.

Lemma extractImageLinks_dedup_run :
  new_URL "https://site.test/page" None = Normal Sample.site_page
  /\ exists links,
       extractImageLinks Sample.page_dup "https://site.test/page"
         = Normal links
       /\ links = ["https://site.test/x/one.jpg"; "https://site.test/two.png"]
       /\ NoDup links
       /\ count_occ string_dec links "https://site.test/x/one.jpg" = 1.
Proof.
  split; [reflexivity|].
  destruct (extractImageLinks_dedup (B := Ref.browser) Sample.page_dup "https://site.test/page"
              Sample.site_page eq_refl)
    as (links & Hrun & Hnodup & Hin & Hone & Horder).
  exists links. split; [exact Hrun|].
  split; [injection Hrun as <-; reflexivity|].
  split; [exact Hnodup|].
  apply Hone. left. reflexivity.
Defined.

Lemma extractImageLinks_total_run :
  (exists links,
      extractImageLinks Sample.page_dup "https://site.test/page"
        = Normal links)
  /\ (exists v, extractImageLinks Sample.page_dup "" = Throw v).
Proof.
  destruct (extractImageLinks_total_on_valid_base (B := Ref.browser) Sample.page_dup)
    as (Hvalid & _ & Hempty).
  split.
  - destruct (Hvalid "https://site.test/page" Sample.site_page eq_refl)
      as (links & Hrun & _).
    exists links. exact Hrun.
  - apply Hempty. exact RefFacts.reference_rejects_empty.
Defined.

(** C2, as first stated, fails: a fetch rejected with an [Error] (what
    browsers reject with on a network failure) shows that error's
    message, not the fallback text. *)
Lemma fetch_rejection_shows_own_message :
  statusLine
    (handleSubmit_resume "https://site.test/page"
       (Throw (ErrorInstance "Failed to fetch")) Sample.waiting)
    = StatusError "Failed to fetch"
  /\ StatusError "Failed to fetch" <> StatusError MSG_FETCH_FALLBACK.
Proof. split; [reflexivity|discriminate]. Qed.

End Runs.

(* ================================================================== *)
(** ** Further runs on the reference browser *)

Section MoreRuns.
Existing Instance Ref.browser.

Lemma ensureAbsoluteUrl_sound_run :
  ensureAbsoluteUrl "example.com" = Some "https://example.com/"
  /\ "example.com" <> ""
  /\ ((exists u, new_URL "example.com" None = Normal u
                 /\ "https://example.com/" = URL_toString u)
      \/ (rejects "example.com"
          /\ exists u,
               new_URL ("https://" ++ "example.com") None = Normal u
               /\ "https://example.com/" = URL_toString u)).
Proof.
  split; [reflexivity|].
  exact (ensureAbsoluteUrl_sound (B := Ref.browser) "example.com"
           "https://example.com/" eq_refl).
Defined.

Lemma normalized_url_is_valid_base_run :
  serialization_reparses
  /\ ensureAbsoluteUrl "site.test/page" = Some "https://site.test/page"
  /\ exists links,
       extractImageLinks Sample.page "https://site.test/page" = Normal links
       /\ fetchLinks "https://site.test/page"
            (Sample.ok_response Sample.page) = Normal links.
Proof.
  split; [exact RefFacts.reference_reparses|]. split; [reflexivity|].
  exact (normalized_url_is_valid_base (B := Ref.browser) "site.test/page"
           "https://site.test/page" Sample.page
           {| ok := true; status := 200; text := Normal Sample.page |}
           RefFacts.reference_reparses eq_refl eq_refl eq_refl).
Defined.

Lemma fetch_issued_iff_normalized_run :
  snd (handleSubmit_begin (Sample.typed " site.test/page "))
    = Some "https://site.test/page"
  /\ statusLine (fst (handleSubmit_begin (Sample.typed " site.test/page ")))
     = StatusFetching.
Proof.
  split; [reflexivity|].
  exact (proj2 (proj2 (fetch_issued_iff_normalized (B := Ref.browser)
                         (Sample.typed " site.test/page ")
                         "https://site.test/page") eq_refl)).
Defined.

Lemma new_Set_fixed_points_run :
  NoDup ["b"; "a"; "c"]
  /\ Array_from_Set (new_Set ["b"; "a"; "c"]) = ["b"; "a"; "c"].
Proof.
  assert (Hnd : NoDup ["b"; "a"; "c"]).
  { repeat constructor; simpl; intuition discriminate. }
  split; [exact Hnd|].
  exact (proj1 (new_Set_fixed_points ["b"; "a"; "c"]) Hnd).
Defined.

Lemma extractImageLinks_at_most_anchors_run :
  extractImageLinks Sample.page_dup "https://site.test/page"
    = Normal ["https://site.test/x/one.jpg"; "https://site.test/two.png"]
  /\ 2 <= List.length
            (querySelectorAll_a_href (parseFromString Sample.page_dup)).
Proof.
  split; [reflexivity|].
  exact (extractImageLinks_at_most_anchors (B := Ref.browser)
           Sample.page_dup "https://site.test/page"
           ["https://site.test/x/one.jpg"; "https://site.test/two.png"]
           eq_refl).
Defined.

Lemma failed_requests_keep_list_run :
  imageUrls (handleSubmit_resume "https://site.test/page"
               (Sample.ok_response Sample.page) Sample.waiting)
    <> imageUrls Sample.waiting
  /\ exists response html,
       Sample.ok_response Sample.page = Normal response
       /\ ok response = true
       /\ text response = Normal html
       /\ extractImageLinks html "https://site.test/page"
          = Normal (imageUrls (handleSubmit_resume "https://site.test/page"
                                 (Sample.ok_response Sample.page)
                                 Sample.waiting)).
Proof.
  assert (Hne : imageUrls (handleSubmit_resume "https://site.test/page"
                             (Sample.ok_response Sample.page) Sample.waiting)
                <> imageUrls Sample.waiting) by discriminate.
  split; [exact Hne|].
  exact (proj2 (proj2 (proj2
           (failed_requests_keep_list (B := Ref.browser)
              "https://site.test/page" (Sample.ok_response Sample.page)
              Sample.waiting))) Hne).
Defined.

Lemma http_failure_message_run :
  ok Sample.not_found = false
  /\ error (handleSubmit_resume "https://site.test/page"
              (Normal Sample.not_found) Sample.waiting)
     = "Request failed with status 404".
Proof.
  split; [reflexivity|].
  exact (f_equal error
           (proj1 (http_failure_message (B := Ref.browser)
                     "https://site.test/page" Sample.not_found
                     Sample.waiting eq_refl))).
Defined.

Lemma no_image_links_message_run :
  new_URL "https://site.test/page" None = Normal Sample.site_page
  /\ extractImageLinks Sample.page_plain "https://site.test/page" = Normal []
  /\ statusLine (handleSubmit_resume "https://site.test/page"
                   (Sample.ok_response Sample.page_plain) Sample.waiting)
     = StatusError MSG_NO_LINKS.
Proof.
  split; [reflexivity|]. split; [reflexivity|].
  exact (proj2 (proj2 (no_image_links_message (B := Ref.browser)
                         "https://site.test/page" Sample.page_plain
                         Sample.site_page
                         {| ok := true; status := 200;
                            text := Normal Sample.page_plain |}
                         Sample.waiting eq_refl eq_refl eq_refl)
                  eq_refl)).
Defined.

Lemma next_prev_round_trip_run :
  (0 < selectedIndex Sample.browsing
     < length_of (imageUrls Sample.browsing))%Z
  /\ handleNext (handlePrev Sample.browsing) = Sample.browsing.
Proof.
  assert (H : (0 < selectedIndex Sample.browsing
                 < length_of (imageUrls Sample.browsing))%Z)
    by (split; reflexivity).
  split; [exact H|].
  exact (proj2 (next_prev_round_trip Sample.browsing) H).
Defined.

Lemma repeated_navigation_run :
  (0 <= selectedIndex Sample.browsing)%Z
  /\ Nat.iter 5 handlePrev Sample.browsing
     = setSelectedIndex 0 Sample.browsing.
Proof.
  assert (H : (0 <= selectedIndex Sample.browsing)%Z) by discriminate.
  split; [exact H|].
  exact (proj2 (repeated_navigation Sample.browsing 5) H).
Defined.

Lemma events_touch_their_own_state_run :
  step Sample.visit_loaded ClickNext Sample.visit_next
  /\ urlInput (fst Sample.visit_next) = urlInput (fst Sample.visit_loaded)
  /\ imageUrls (fst Sample.visit_next) = imageUrls (fst Sample.visit_loaded).
Proof.
  assert (Hstep : step Sample.visit_loaded ClickNext Sample.visit_next)
    by apply step_next.
  split; [exact Hstep|].
  destruct (events_touch_their_own_state (B := Ref.browser)
              Sample.visit_loaded Sample.visit_next ClickNext Hstep)
    as (Htext & Hrest & _).
  split.
  - apply Htext. discriminate.
  - apply Hrest; discriminate.
Defined.

Lemma submitted_reachable : reachable Sample.visit_submitted.
Proof.
  apply (reachable_step Sample.visit_typed Submit);
    [|exact (step_submit (fst Sample.visit_typed) None eq_refl)].
  apply (reachable_step (initialState, None) (Change "site.test/page"));
    [apply reachable_init|].
  exact (step_change initialState None "site.test/page" eq_refl).
Defined.

Lemma loading_iff_request_in_flight_run :
  reachable Sample.visit_submitted
  /\ loading (fst Sample.visit_submitted) = true
  /\ statusLine (fst Sample.visit_submitted) = StatusFetching.
Proof.
  split; [exact submitted_reachable|].
  destruct (loading_iff_request_in_flight (B := Ref.browser)
              Sample.visit_submitted submitted_reachable) as (Hiff & Hwhile).
  assert (Hp : snd Sample.visit_submitted <> None) by discriminate.
  split; [exact (proj2 Hiff Hp)|].
  exact (proj2 (proj2 (proj2 (Hwhile Hp)))).
Defined.

Lemma displayed_links_are_distinct_images_run :
  reachable Sample.visit_next /\ NoDup (imageUrls (fst Sample.visit_next)).
Proof.
  split; [exact visit_reachable|].
  exact (proj1 (displayed_links_are_distinct_images (B := Ref.browser)
                  Sample.visit_next visit_reachable)).
Defined.

Lemma selected_item_unique_run :
  reachable Sample.visit_next
  /\ imageUrls (fst Sample.visit_next) <> []
  /\ exists url,
       selectedImage (fst Sample.visit_next) = Some url
       /\ In url (imageUrls (fst Sample.visit_next))
       /\ map fst (listItems (fst Sample.visit_next))
          = imageUrls (fst Sample.visit_next)
       /\ filter snd (listItems (fst Sample.visit_next)) = [(url, true)].
Proof.
  assert (Hne : imageUrls (fst Sample.visit_next) <> []) by discriminate.
  split; [exact visit_reachable|]. split; [exact Hne|].
  exact (selected_item_unique (B := Ref.browser) Sample.visit_next
           visit_reachable Hne).
Defined.

Lemma disabled_buttons_are_noops_run :
  reachable Sample.visit_next
  /\ imageUrls (fst Sample.visit_next) <> []
  /\ (prevDisabled (fst Sample.visit_next) = true <->
      handlePrev (fst Sample.visit_next) = fst Sample.visit_next)
  /\ (nextDisabled (fst Sample.visit_next) = true <->
      handleNext (fst Sample.visit_next) = fst Sample.visit_next).
Proof.
  assert (Hne : imageUrls (fst Sample.visit_next) <> []) by discriminate.
  split; [exact visit_reachable|]. split; [exact Hne|].
  exact (disabled_buttons_are_noops (B := Ref.browser) Sample.visit_next
           visit_reachable Hne).
Defined.

Lemma successful_load_display_run :
  serialization_reparses
  /\ reachable Sample.visit_submitted
  /\ exists links,
       extractImageLinks Sample.page "https://site.test/page" = Normal links
       /\ statusLine (fst Sample.visit_loaded) = StatusFound 3
       /\ selectedImage (fst Sample.visit_loaded) = hd_error links.
Proof.
  split; [exact RefFacts.reference_reparses|].
  split; [exact submitted_reachable|].
  destruct (successful_load_display (B := Ref.browser)
              (fst Sample.visit_submitted) "https://site.test/page"
              Sample.page
              {| ok := true; status := 200; text := Normal Sample.page |}
              RefFacts.reference_reparses submitted_reachable
              eq_refl eq_refl)
    as (links & Hx & _ & _ & Hsel & _).
  exists links. split; [exact Hx|]. split; [reflexivity|exact Hsel].
Defined.

End MoreRuns.
